(** * pathcomp: prefix-compressed path storage over a chain of bitmask nodes

    A shallow embedding of [src/pathcomp.c] (struct node, count_uper_bits,
    insert_path, free_path and main) together with the properties of the
    insertion algorithm.

    The allocation failure path ([exit(1)]) is left out: no property below
    depends on it.

    Memory model.  The C program owns its nodes through raw pointers, and
    the properties below speak about node identity, so the store is
    explicit: a heap is the list of all nodes ever allocated, an address is
    an index into it, and a pointer is an optional address ([None] is
    NULL).  [calloc] appends a zeroed node, hence always returns an address
    that was not in use before; it is assumed never to fail.  Reading or
    writing through NULL (or through an address that was never allocated)
    is a fault: the operation has no result, [None]. *)

From stdpp Require Import base option list.
From Stdlib Require Import ZArith Lia.

Local Open Scope Z_scope.

(** ** Machine integers *)

(** [#define LLA 64] *)
Definition LLA : Z := 64.

(** [x << n] on [uint64_t]: the bits shifted past position 63 are lost.
    For [0 <= n < 64] this is what C prescribes.  C gives no meaning to a
    shift by a negative count or by 64 and more.  For the constant
    expression [1ULL << LLA] the arithmetic reading, the value modulo 2^64,
    is kept: it is 0.  For a shift by an identifier outside [0, 64), whose
    count is only known when the program runs, the value given here is a
    convention and nothing more: what [insert_path] does with such
    identifiers is stated on [insert_path_ub] below, where the value of an
    undefined shift is left open. *)
Definition shl64 (x n : Z) : Z := Z.shiftl x n mod 2 ^ 64.

(** The conversion of the [int] argument to the [uint32_t] field. *)
Definition to_uint32 (w : Z) : Z := w mod 2 ^ 32.

(** ** The store *)

Abbreviation ptr := (option nat).

(** [struct node] *)
Record node : Type := mk_node {
  letters_table : Z;   (* uint64_t: bitmask for elements *)
  next : ptr;          (* struct node*: next node *)
  weight : Z           (* uint32_t: weight *)
}.

Abbreviation heap := (list node).

Definition set_letters_table (nd : node) (v : Z) : node :=
  mk_node v (next nd) (weight nd).
Definition set_next (nd : node) (p : ptr) : node :=
  mk_node (letters_table nd) p (weight nd).
Definition set_weight (nd : node) (v : Z) : node :=
  mk_node (letters_table nd) (next nd) v.

(** The node [calloc(1, sizeof(struct node))] hands out: all fields zero. *)
Definition zero_node : node := mk_node 0 None 0.

(** [calloc]: the new node lives at the first unused address. *)
Definition calloc (h : heap) : heap * nat := (h ++ [zero_node], length h).

(** [*p] *)
Definition load (h : heap) (p : ptr) : option node :=
  match p with
  | Some a => h !! a
  | None => None
  end.

(** ** count_uper_bits *)

(** The values [j] takes in [for (int j = pos + 1; j < LLA; j++)]. *)
Definition upper_positions (pos : Z) : list Z :=
  map (fun k : nat => pos + 1 + Z.of_nat k) (seq 0 (Z.to_nat (LLA - (pos + 1)))).

(** [i->letters_table & (1ULL << j)], as a truth value. *)
Definition bit_set (table j : Z) : bool :=
  negb (Z.land table (shl64 1 j) =? 0).

(** [count_uper_bits(i, pos)], on the node [i] points to. *)
Definition count_uper_bits (nd : node) (pos : Z) : Z :=
  fold_left (fun count j => if bit_set (letters_table nd) j then count + 1 else count)
            (upper_positions pos) 0.

(** ** insert_path *)

(** [for (int j = n; j > 0; j--) i = i->next;] *)
Fixpoint advance (h : heap) (i : ptr) (n : nat) : option ptr :=
  match n with
  | O => Some i
  | S n' =>
      match load h i with
      | Some nd => advance h (next nd) n'
      | None => None
      end
  end.

(** One iteration of the loop over the path: the body for [pos = path[k]]. *)
Definition visit (h : heap) (i : ptr) (pos : Z) : option (heap * ptr) :=
  match i with
  | None => None
  | Some a =>
      match h !! a with
      | None => None
      | Some nd =>
          (* i->letters_table |= (1ULL << pos); *)
          let nd1 := set_letters_table nd (Z.lor (letters_table nd) (shl64 1 pos)) in
          let h1 := <[a := nd1]> h in
          let n := count_uper_bits nd1 pos in
          if 0 <? n then
            match advance h1 (Some a) (Z.to_nat n) with
            | Some i' => Some (h1, i')
            | None => None
            end
          else
            let '(h2, new_node) := calloc h1 in
            let temp := next nd1 in
            (* i->next = new_node; i = i->next; i->next = temp; *)
            let h3 := <[a := set_next nd1 (Some new_node)]> h2 in
            let h4 := <[new_node := set_next zero_node temp]> h3 in
            Some (h4, Some new_node)
      end
  end.

(** The loop [for (int k = 0; k < path_len; k++)]: the heap and the
    cursor [i] it leaves. *)
Fixpoint walk (h : heap) (i : ptr) (path : list Z) : option (heap * ptr) :=
  match path with
  | [] => Some (h, i)
  | pos :: rest =>
      match visit h i pos with
      | Some (h', i') => walk h' i' rest
      | None => None
      end
  end.

(** The two stores after the loop:
    [i->letters_table |= (1ULL << LLA); i->weight = weight;] *)
Definition finish (h : heap) (i : ptr) (w : Z) : option heap :=
  match i with
  | None => None
  | Some a =>
      match h !! a with
      | None => None
      | Some nd =>
          let nd1 := set_letters_table nd (Z.lor (letters_table nd) (shl64 1 LLA)) in
          Some (<[a := set_weight nd1 (to_uint32 w)]> h)
      end
  end.

(** [insert_path(root, path, path_len, weight)]; [path] holds the
    [path_len] identifiers.  [None] is a fault. *)
Definition insert_path (h : heap) (root : ptr) (path : list Z) (w : Z) : option heap :=
  match walk h root path with
  | Some (h', i) => finish h' i w
  | None => None
  end.

(** ** Observations *)

(** The state [main] starts from: a zeroed root, at address 0. *)
Definition fresh : heap := [zero_node].
Definition root : ptr := Some 0%nat.

(** [p->next->...->next] with [n] arrows, as a node. *)
Definition nth_next (h : heap) (p : ptr) (n : nat) : option node :=
  match advance h p n with
  | Some q => load h q
  | None => None
  end.

(** The test [main] uses for the end-of-path mark:
    [letters_table & (1ULL << LLA)]. *)
Definition is_terminal (nd : node) : bool := bit_set (letters_table nd) LLA.

(** Membership of identifier [id] at a node: [letters_table & (1ULL << id)]. *)
Definition has_bit (nd : node) (id : Z) : bool := bit_set (letters_table nd) id.

(** A valid element identifier. *)
Definition valid_id (id : Z) : Prop := 0 <= id < LLA.

(** The addresses on the chain from [p], up to [fuel] of them. *)
Fixpoint chain (fuel : nat) (h : heap) (p : ptr) : list nat :=
  match fuel with
  | O => []
  | S f =>
      match p with
      | None => []
      | Some a =>
          match h !! a with
          | Some nd => a :: chain f h (next nd)
          | None => []
          end
      end
  end.

(** Run a list of insertions in order. *)
Fixpoint insert_all (h : heap) (r : ptr) (calls : list (list Z * Z)) : option heap :=
  match calls with
  | [] => Some h
  | (path, w) :: rest =>
      match insert_path h r path w with
      | Some h' => insert_all h' r rest
      | None => None
      end
  end.

(** The three steps of the test scenario of [main]. *)
Definition test1 : list (list Z * Z) := [([0; 1], 10)].
Definition test2 : list (list Z * Z) := [([0; 1], 10); ([0; 1; 2], 25)].
Definition test3 : list (list Z * Z) := [([0; 1], 10); ([0; 1; 2], 25); ([1; 2], 15)].


(** The membership bitmasks along the chain from [r]. *)
Definition chain_tables (h : heap) (r : ptr) : list Z :=
  omap (fun a => letters_table <$> h !! a) (chain (length h) h r).

(** ** free_path *)

(** How a run ends: it returns, it faults (a read of a node that was never
    allocated), or it is still going when the bound on the number of rounds
    is used up. *)
Inductive run (A : Type) : Type :=
  | Returns (a : A)
  | Faults
  | Unfinished.
Arguments Returns {A} a.
Arguments Faults {A}.
Arguments Unfinished {A}.

(** The loop of [free_path],
    [while (current) { temp = current; current = current->next; free(temp); }],
    with the addresses passed to [free] so far, in order.  The loop follows
    the links as it finds them and keeps no record of its own: on a chain
    that comes back to a node it has freed, the program reads that node
    again and frees it again (both undefined in C), and the list [freed]
    shows the repeat. *)
Fixpoint free_loop (fuel : nat) (h : heap) (freed : list nat) (current : ptr)
  : run (list nat) :=
  match fuel with
  | O => Unfinished
  | S fuel' =>
      match current with
      | None => Returns freed
      | Some temp =>
          match h !! temp with
          | None => Faults
          | Some nd => free_loop fuel' h (freed ++ [temp]) (next nd)
          end
      end
  end.

(** [free_path(root)]: the addresses it frees, in order.  A chain that
    reaches NULL passes no node twice, so it has at most [length h] nodes
    and one round more than that is enough for it ([free_path_on_chain]);
    on a chain that does not reach NULL no number of rounds makes the loop
    return ([free_path_returns_iff]). *)
Definition free_path (h : heap) (root : ptr) : run (list nat) :=
  free_loop (S (length h)) h [] root.

(** ** main *)

(** The stores after the loop of [insert_path], with the value of the
    expression [1ULL << LLA] left open. *)
Definition finish_with (end_mark : Z) (h : heap) (i : ptr) (w : Z) : option heap :=
  match i with
  | None => None
  | Some a =>
      match h !! a with
      | None => None
      | Some nd =>
          let nd1 := set_letters_table nd (Z.lor (letters_table nd) end_mark) in
          Some (<[a := set_weight nd1 (to_uint32 w)]> h)
      end
  end.

Definition insert_path_with (end_mark : Z) (h : heap) (root : ptr) (path : list Z) (w : Z)
  : option heap :=
  match walk h root path with
  | Some (h', i) => finish_with end_mark h' i w
  | None => None
  end.

(** How the test program ends: an assertion fails (at a source line), a
    fault, or [return 0] after ["All tests passed"], with the nodes
    [free_path] has released. *)
Inductive outcome : Type :=
  | Aborted (line : Z)
  | Crashed
  | Exited (status : Z) (released : list nat).

(** [assert(cond)] at [line], followed by the rest of the program. *)
Definition assert_at (line : Z) (cond : bool) (rest : outcome) : outcome :=
  if cond then rest else Aborted line.

(** Evaluate [p->next->...->next] ([n] arrows) to a node and go on, or
    crash. *)
Definition with_node (h : heap) (p : ptr) (n : nat) (rest : node -> outcome) : outcome :=
  match nth_next h p n with
  | Some nd => rest nd
  | None => Crashed
  end.

Definition with_heap (r : option heap) (rest : heap -> outcome) : outcome :=
  match r with
  | Some h => rest h
  | None => Crashed
  end.

(** [main], assertions enabled, for a given value of [1ULL << LLA]. *)
Definition main_with (end_mark : Z) : outcome :=
  let '(h0, r) := calloc [] in
  let root := Some r in
  (* assert(root != NULL): the allocation of the model does not fail *)
  (* Test 1 *)
  with_heap (insert_path_with end_mark h0 root [0; 1] 10) (fun h1 =>
  with_node h1 root 0 (fun r0 =>
  assert_at 115 (negb (Z.land (letters_table r0) (shl64 1 0) =? 0)) (
  assert_at 116 (bool_decide (next r0 <> None)) (
  with_node h1 root 1 (fun r1 =>
  assert_at 117 (negb (Z.land (letters_table r1) (shl64 1 1) =? 0)) (
  assert_at 118 (negb (Z.land (letters_table r1) end_mark =? 0)) (
  assert_at 119 (weight r1 =? 10) (
  (* Test 2 *)
  with_heap (insert_path_with end_mark h1 root [0; 1; 2] 25) (fun h2 =>
  with_node h2 root 1 (fun s1 =>
  assert_at 124 (bool_decide (next s1 <> None)) (
  with_node h2 root 2 (fun s2 =>
  assert_at 125 (negb (Z.land (letters_table s2) (shl64 1 2) =? 0)) (
  assert_at 126 (negb (Z.land (letters_table s2) end_mark =? 0)) (
  assert_at 127 (weight s2 =? 25) (
  (* Test 3 *)
  with_heap (insert_path_with end_mark h2 root [1; 2] 15) (fun h3 =>
  with_node h3 root 0 (fun t0 =>
  assert_at 132 (negb (Z.land (letters_table t0) (shl64 1 1) =? 0)) (
  (* Clean up *)
  match free_path h3 root with
  | Returns released => Exited 0 released
  | _ => Crashed
  end)))))))))))))))))).

(** [main] as compiled with the shift taken modulo 2^64. *)
Definition main : outcome := main_with (shl64 1 LLA).

(** ** Identifiers outside [0, 64) *)

(** [1ULL << n] with a count known only at run time.  For [n] in [0, 64)
    it is [2 ^ n]; for any other [n] C leaves it undefined, and its value
    is whatever [u n] is, as a 64-bit word. *)
Definition shl1_ub (u : Z -> Z) (n : Z) : Z :=
  if (0 <=? n) && (n <? 64) then shl64 1 n else u n mod 2 ^ 64.

(** One such [u]: the shift instruction of the processor takes its count
    modulo 64. *)
Definition shl_count_mod_64 (n : Z) : Z := 2 ^ (n mod 64).

Definition bit_set_ub (u : Z -> Z) (table j : Z) : bool :=
  negb (Z.land table (shl1_ub u j) =? 0).

(** [count_uper_bits], its shifts read as above. *)
Definition count_uper_bits_ub (u : Z -> Z) (nd : node) (pos : Z) : Z :=
  fold_left (fun count j => if bit_set_ub u (letters_table nd) j then count + 1 else count)
            (upper_positions pos) 0.

(** The body of the loop of [insert_path], its shifts read as above. *)
Definition visit_ub (u : Z -> Z) (h : heap) (i : ptr) (pos : Z) : option (heap * ptr) :=
  match i with
  | None => None
  | Some a =>
      match h !! a with
      | None => None
      | Some nd =>
          let nd1 := set_letters_table nd (Z.lor (letters_table nd) (shl1_ub u pos)) in
          let h1 := <[a := nd1]> h in
          let n := count_uper_bits_ub u nd1 pos in
          if 0 <? n then
            match advance h1 (Some a) (Z.to_nat n) with
            | Some i' => Some (h1, i')
            | None => None
            end
          else
            let '(h2, new_node) := calloc h1 in
            let temp := next nd1 in
            let h3 := <[a := set_next nd1 (Some new_node)]> h2 in
            let h4 := <[new_node := set_next zero_node temp]> h3 in
            Some (h4, Some new_node)
      end
  end.

Fixpoint walk_ub (u : Z -> Z) (h : heap) (i : ptr) (path : list Z) : option (heap * ptr) :=
  match path with
  | [] => Some (h, i)
  | pos :: rest =>
      match visit_ub u h i pos with
      | Some (h', i') => walk_ub u h' i' rest
      | None => None
      end
  end.

(** [insert_path] for arbitrary identifiers: [u] gives the value of an
    undefined run-time shift, [end_mark] that of [1ULL << LLA].  On valid
    paths it is [insert_path] ([insert_path_ub_valid]). *)
Definition insert_path_ub (u : Z -> Z) (end_mark : Z)
    (h : heap) (root : ptr) (path : list Z) (w : Z) : option heap :=
  match walk_ub u h root path with
  | Some (h', i) => finish_with end_mark h' i w
  | None => None
  end.

(** ** Reference notions *)

(** The number of ones in the binary representation. *)
Fixpoint popcount_pos (p : positive) : Z :=
  match p with
  | xH => 1
  | xO q => popcount_pos q
  | xI q => 1 + popcount_pos q
  end.

Definition popcount (x : Z) : Z :=
  match x with
  | Zpos p => popcount_pos p
  | _ => 0
  end.

(** The nodes an insertion appends when it allocates in every iteration:
    one per remaining identifier, each linked to the next address, the last
    one holding the weight and linked to [p]. *)
Fixpoint tail_nodes (k : nat) (rest : list Z) (p : ptr) (w : Z) : list node :=
  match rest with
  | [] => [mk_node 0 p (to_uint32 w)]
  | y :: ys => mk_node (shl64 1 y) (Some (S k)) 0 :: tail_nodes (S k) ys p w
  end.

(** A list of calls in which every path is non-empty and valid and the
    first identifiers never decrease, starting from [m]. *)
Fixpoint ascending (m : Z) (calls : list (list Z * Z)) : Prop :=
  match calls with
  | [] => True
  | (path, _) :: rest =>
      match path with
      | [] => False
      | x :: _ => m <= x /\ Forall valid_id path /\ ascending x rest
      end
  end.

(** The number of identifiers in all the paths of a list of calls. *)
Fixpoint total_length (calls : list (list Z * Z)) : nat :=
  match calls with
  | [] => O
  | (path, _) :: rest => (length path + total_length rest)%nat
  end.

(** ** Vocabulary of the properties *)

(** Every node of [h] is still allocated in [h'], and related by [R] to
    what it was. *)
Definition preserved (R : node -> node -> Prop) (h h' : heap) : Prop :=
  forall a nd, h !! a = Some nd -> exists nd', h' !! a = Some nd' /\ R nd nd'.

(** Instances: membership bits are kept, weights are kept, the bitmask is
    kept, bitmask and link are kept. *)
Definition bits_kept (nd nd' : node) : Prop :=
  forall id, has_bit nd id = true -> has_bit nd' id = true.

Definition weight_kept (nd nd' : node) : Prop := weight nd' = weight nd.

Definition table_kept (x y : node) : Prop := letters_table y = letters_table x.

Definition shape_kept (x y : node) : Prop :=
  letters_table y = letters_table x /\ next y = next x.

(** [list_at h p l]: following [next] from [p] in [h] visits exactly the
    addresses [l], in order, and then reaches NULL. *)
Inductive list_at (h : heap) : ptr -> list nat -> Prop :=
  | list_at_null : list_at h None []
  | list_at_node (a : nat) (nd : node) (l : list nat) :
      h !! a = Some nd -> list_at h (next nd) l -> list_at h (Some a) (a :: l).

(** Goals on the lengths of updated and extended heaps. *)
Ltac solve_length :=
  repeat first [rewrite length_insert | rewrite length_app]; simpl; lia.

(** ** Bit-level facts *)

Lemma shl64_valid (j : Z) : 0 <= j < 64 -> shl64 1 j = 2 ^ j.
Proof.
  intros Hj. unfold shl64. rewrite Z.shiftl_1_l.
  apply Z.mod_small. split; [apply Z.pow_nonneg; lia|].
  apply Z.pow_lt_mono_r; lia.
Qed.

Lemma shl64_high (j : Z) : 64 <= j -> shl64 1 j = 0.
Proof.
  intros Hj. unfold shl64. rewrite Z.shiftl_1_l.
  replace j with (64 + (j - 64)) by lia.
  rewrite Z.pow_add_r, Z.mul_comm by lia.
  apply Z.mod_mul. lia.
Qed.

Lemma shl64_negative (j : Z) : j < 0 -> shl64 1 j = 0.
Proof.
  intros Hj. unfold shl64. rewrite Z.shiftl_1_l.
  rewrite Z.pow_neg_r by lia. reflexivity.
Qed.

Lemma end_mark_wraps : shl64 1 LLA = 0.
Proof. reflexivity. Qed.

Lemma bit_set_testbit (t j : Z) : 0 <= j < 64 -> bit_set t j = Z.testbit t j.
Proof.
  intros Hj. unfold bit_set. rewrite shl64_valid by lia.
  destruct (Z.testbit t j) eqn:Hb.
  - apply negb_true_iff, Z.eqb_neq. intros H0.
    assert (Z.testbit (Z.land t (2 ^ j)) j = true) as Hc.
    { rewrite Z.land_spec, Hb, Z.pow2_bits_true by lia. reflexivity. }
    rewrite H0, Z.bits_0 in Hc. discriminate.
  - apply negb_false_iff, Z.eqb_eq. apply Z.bits_inj'. intros k Hk.
    rewrite Z.land_spec, Z.bits_0.
    destruct (Z.eq_dec j k) as [->|Hne].
    + rewrite Hb. reflexivity.
    + rewrite (Z.pow2_bits_false j k) by lia. apply andb_false_r.
Qed.

Lemma bit_set_out_of_range (t j : Z) : j < 0 \/ 64 <= j -> bit_set t j = false.
Proof.
  intros [Hj|Hj]; unfold bit_set.
  - rewrite shl64_negative, Z.land_0_r by lia. reflexivity.
  - rewrite shl64_high, Z.land_0_r by lia. reflexivity.
Qed.

(** Whatever 64-bit value stood for the end mark, it would either be
    invisible or coincide with the membership bit of a valid identifier. *)
Lemma no_room_for_a_mark (m : Z) :
  0 <= m < 2 ^ 64 -> m = 0 \/ exists id, valid_id id /\ bit_set m id = true.
Proof.
  intros Hm. destruct (Z.eq_dec m 0) as [->|Hne]; [left; reflexivity|right].
  exists (Z.log2 m).
  assert (0 < m) as Hpos by lia.
  assert (Z.log2 m < 64) as Hlog by (apply Z.log2_lt_pow2; lia).
  pose proof (Z.log2_nonneg m).
  split; [unfold valid_id, LLA; lia|].
  rewrite bit_set_testbit by lia. apply Z.bit_log2. lia.
Qed.

Lemma no_room_for_a_mark_witness :
  1 = 0 \/ exists id, valid_id id /\ bit_set 1 id = true.
Proof. apply (no_room_for_a_mark 1). lia. Defined.

(** ** The test scenario of main, evaluated *)

(** C1: after [insert_path(root, {0,1}, 2, 10)] on a fresh root, the root
    has bit 0 and [root->next] has bit 1, but [root->next] is the node the
    last identifier was recorded on, not the node the loop leaves: its
    weight is still 0 and it bears no end mark.  The weight 10 sits one
    node further, on [root->next->next], a node with an empty bitmask.
    The assertions of [main] on [root->next] therefore do not hold. *)
Theorem insert_0_1_weight_is_one_node_late :
  exists h r0 r1 r2,
    insert_all fresh root test1 = Some h /\
    nth_next h root 0 = Some r0 /\
    nth_next h root 1 = Some r1 /\
    nth_next h root 2 = Some r2 /\
    has_bit r0 0 = true /\
    has_bit r1 1 = true /\
    weight r1 = 0 /\ weight r1 <> 10 /\ is_terminal r1 = false /\
    letters_table r2 = 0 /\ weight r2 = 10 /\ next r2 = None.
Proof.
  eexists _, _, _, _.
  split; [vm_compute; reflexivity|].
  repeat split; try (vm_compute; reflexivity).
  vm_compute. discriminate.
Qed.

(** C2: three insertions of valid one-element paths, [5], [4], [3], into a
    fresh trie.  The first two return.  The third counts two higher bits on
    the root and steps twice along a chain that has a single node after the
    root: the loop leaves the cursor at NULL, and the store through it after
    the loop is a fault. *)
Theorem insert_5_4_3_follows_null :
  exists h,
    insert_all fresh root [([5], 7); ([4], 9)] = Some h /\
    Forall valid_id [5; 4; 3] /\
    chain (length h) h root = [0%nat; 1%nat] /\
    (exists r0, nth_next h root 0 = Some r0 /\
                count_uper_bits (set_letters_table r0 (Z.lor (letters_table r0) (shl64 1 3))) 3 = 2) /\
    (exists h', walk h root [3] = Some (h', None)) /\
    insert_path h root [3] 1 = None.
Proof.
  eexists. split; [vm_compute; reflexivity|].
  split; [repeat constructor; unfold valid_id, LLA; lia|].
  split; [vm_compute; reflexivity|].
  split; [eexists; split; [vm_compute; reflexivity|]; vm_compute; reflexivity|].
  split; [eexists; vm_compute; reflexivity|].
  vm_compute; reflexivity.
Qed.

(** C3: [insert_path(root, {0,1,2}, 3, 25)] after the first test.  The
    third chain node has bit 2, but it neither bears the end mark nor
    carries 25 (the weight is on the fourth node), and nothing of the
    stored [0,1] is reused: three more nodes are allocated and spliced in
    front of the two nodes the first insertion made, which stay on the
    chain behind them. *)
Theorem insert_0_1_2_duplicates_prefix :
  exists h1 h2 r0 r1 r2 r3,
    insert_all fresh root test1 = Some h1 /\
    insert_path h1 root [0; 1; 2] 25 = Some h2 /\
    nth_next h2 root 0 = Some r0 /\ nth_next h2 root 1 = Some r1 /\
    nth_next h2 root 2 = Some r2 /\ nth_next h2 root 3 = Some r3 /\
    has_bit r0 0 = true /\ has_bit r1 1 = true /\ has_bit r2 2 = true /\
    weight r2 = 0 /\ weight r2 <> 25 /\ is_terminal r2 = false /\
    weight r3 = 25 /\
    chain (length h1) h1 root = [0; 1; 2]%nat /\
    chain (length h2) h2 root = [0; 3; 4; 5; 1; 2]%nat.
Proof.
  eexists _, _, _, _, _, _.
  split; [vm_compute; reflexivity|].
  split; [vm_compute; reflexivity|].
  repeat split; try (vm_compute; reflexivity).
  vm_compute. discriminate.
Qed.

(** C6: the end mark [1ULL << LLA] asks for bit 64 of a 64-bit word.  No
    such bit exists: the mask is 0, so the store of the mark changes
    nothing and the test for the mark fails on every node, also on the
    node an insertion has just ended on. *)
Theorem end_mark_is_lost :
  shl64 1 LLA = 0 /\
  (forall nd : node, Z.lor (letters_table nd) (shl64 1 LLA) = letters_table nd) /\
  (forall nd : node, is_terminal nd = false) /\
  exists h f,
    insert_path fresh root [0] 1 = Some h /\
    nth_next h root 1 = Some f /\ next f = None /\
    weight f = 1 /\ letters_table f = 0 /\ is_terminal f = false.
Proof.
  split; [reflexivity|].
  split; [intros nd; rewrite end_mark_wraps; apply Z.lor_0_r|].
  split.
  - intros nd. unfold is_terminal, bit_set. rewrite end_mark_wraps, Z.land_0_r. reflexivity.
  - eexists _, _. repeat split; vm_compute; reflexivity.
Qed.

(** ** What an insertion leaves alone *)

Lemma preserved_refl (R : node -> node -> Prop) (h : heap) :
  (forall nd, R nd nd) -> preserved R h h.
Proof. intros HR a nd Ha. exists nd. auto. Qed.

Lemma preserved_trans (R : node -> node -> Prop) (h1 h2 h3 : heap) :
  (forall x y z, R x y -> R y z -> R x z) ->
  preserved R h1 h2 -> preserved R h2 h3 -> preserved R h1 h3.
Proof.
  intros HR H12 H23 a nd Ha.
  destruct (H12 a nd Ha) as (nd2 & Ha2 & HR2).
  destruct (H23 a nd2 Ha2) as (nd3 & Ha3 & HR3).
  exists nd3. eauto.
Qed.

(** Overwriting one allocated node by an [R]-related one. *)
Lemma preserved_insert (R : node -> node -> Prop) (h : heap) (a : nat) (nd nd' : node) :
  (forall x, R x x) -> h !! a = Some nd -> R nd nd' -> preserved R h (<[a := nd']> h).
Proof.
  intros Hrefl Ha HR b ndb Hb.
  destruct (decide (a = b)) as [->|Hne].
  - exists nd'. split.
    + apply list_lookup_insert_eq. eapply lookup_lt_Some; eauto.
    + congruence.
  - exists ndb. rewrite list_lookup_insert_ne by done. auto.
Qed.

Lemma preserved_alloc (R : node -> node -> Prop) (h : heap) (nd : node) :
  (forall x, R x x) -> preserved R h (h ++ [nd]).
Proof.
  intros Hrefl a nda Ha. exists nda. split; [|auto].
  rewrite lookup_app_l; [done|]. eapply lookup_lt_Some; eauto.
Qed.

Section Frame.
(** A relation between the old and the new contents of a node that the
    two kinds of store of the loop body respect. *)
Variable R : node -> node -> Prop.
Hypothesis R_refl : forall x, R x x.
Hypothesis R_trans : forall x y z, R x y -> R y z -> R x z.
Hypothesis R_or : forall x m, R x (set_letters_table x (Z.lor (letters_table x) m)).
Hypothesis R_link : forall x p, R x (set_next x p).

Lemma visit_preserved (h h' : heap) (i i' : ptr) (pos : Z) :
  visit h i pos = Some (h', i') -> preserved R h h'.
Proof using R_refl R_trans R_or R_link.
  unfold visit. destruct i as [a|]; [|discriminate].
  destruct (h !! a) as [nd|] eqn:Ha; [|discriminate].
  set (nd1 := set_letters_table nd _).
  assert (preserved R h (<[a := nd1]> h)) as H1
    by (eapply preserved_insert; eauto).
  assert (<[a := nd1]> h !! a = Some nd1) as Ha1
    by (apply list_lookup_insert_eq; eapply lookup_lt_Some; eauto).
  destruct (0 <? count_uper_bits nd1 pos).
  - destruct (advance _ _ _); [|discriminate].
    intros [= <- <-]. exact H1.
  - unfold calloc. intros [= <- <-].
    set (h1 := <[a := nd1]> h) in *.
    assert (length h1 = length h) as Hlen by apply length_insert.
    pose proof (lookup_lt_Some _ _ _ Ha) as Hlt.
    assert (preserved R h1 (h1 ++ [zero_node])) as H2
      by apply preserved_alloc, R_refl.
    assert (preserved R (h1 ++ [zero_node])
              (<[a := set_next nd1 (Some (length h1))]> (h1 ++ [zero_node]))) as H3.
    { apply preserved_insert with (nd := nd1); [exact R_refl| |apply R_link].
      rewrite lookup_app_l by lia. exact Ha1. }
    eapply preserved_trans; [exact R_trans|exact H1|].
    eapply preserved_trans; [exact R_trans|exact H2|].
    eapply preserved_trans; [exact R_trans|exact H3|].
    apply preserved_insert with (nd := zero_node); [exact R_refl| |apply R_link].
    rewrite list_lookup_insert_ne by lia.
    rewrite lookup_app_r, Nat.sub_diag by lia. reflexivity.
Qed.

Lemma walk_preserved (path : list Z) (h h' : heap) (i i' : ptr) :
  walk h i path = Some (h', i') -> preserved R h h'.
Proof using R_refl R_trans R_or R_link.
  revert h i. induction path as [|pos rest IH]; intros h i; simpl.
  - intros [= <- <-]. apply preserved_refl, R_refl.
  - destruct (visit h i pos) as [[h1 i1]|] eqn:Hv; [|discriminate].
    intros Hw. eapply preserved_trans; [exact R_trans| |eapply IH, Hw].
    eapply visit_preserved, Hv.
Qed.
End Frame.

Lemma bit_set_lor (t m id : Z) : bit_set t id = true -> bit_set (Z.lor t m) id = true.
Proof.
  unfold bit_set. rewrite !negb_true_iff, !Z.eqb_neq.
  intros Hx H0. apply Hx.
  rewrite Z.land_lor_distr_l in H0. apply Z.lor_eq_0_iff in H0. tauto.
Qed.

Lemma bits_kept_or (x : node) (m : Z) :
  bits_kept x (set_letters_table x (Z.lor (letters_table x) m)).
Proof. intros id. unfold has_bit. simpl. apply bit_set_lor. Qed.

Lemma preserved_length (R : node -> node -> Prop) (h h' : heap) :
  preserved R h h' -> (length h <= length h')%nat.
Proof.
  intros Hp. destruct (decide (length h = 0%nat)) as [->|Hne]; [lia|].
  destruct (lookup_lt_is_Some_2 h (length h - 1)) as [nd Hnd]; [lia|].
  destruct (Hp _ _ Hnd) as (nd' & Hnd' & _).
  apply lookup_lt_Some in Hnd'. lia.
Qed.

Lemma walk_bits_kept (path : list Z) (h h' : heap) (i i' : ptr) :
  walk h i path = Some (h', i') -> preserved bits_kept h h'.
Proof.
  apply walk_preserved.
  - intros x id; auto.
  - intros x y z Hxy Hyz id Hid; auto.
  - apply bits_kept_or.
  - intros x p id; auto.
Qed.

Lemma visit_weight_kept (h h' : heap) (i i' : ptr) (pos : Z) :
  visit h i pos = Some (h', i') -> preserved weight_kept h h'.
Proof. apply visit_preserved; unfold weight_kept; simpl; congruence. Qed.

Lemma walk_weight_kept (path : list Z) (h h' : heap) (i i' : ptr) :
  walk h i path = Some (h', i') -> preserved weight_kept h h'.
Proof. apply walk_preserved; unfold weight_kept; simpl; congruence. Qed.

(** The nodes the loop body allocates carry weight 0 ([calloc]). *)
Lemma visit_new_weight (h h' : heap) (i i' : ptr) (pos : Z) (a : nat) (nd : node) :
  visit h i pos = Some (h', i') ->
  (length h <= a)%nat -> h' !! a = Some nd -> weight nd = 0.
Proof.
  unfold visit. destruct i as [c|]; [|discriminate].
  destruct (h !! c) as [ndc|] eqn:Hc; [|discriminate].
  set (nd1 := set_letters_table ndc _).
  pose proof (lookup_lt_Some _ _ _ Hc) as Hlt.
  destruct (0 <? count_uper_bits nd1 pos).
  - destruct (advance _ _ _); [|discriminate].
    intros [= <- <-] Hle Ha. apply lookup_lt_Some in Ha.
    rewrite length_insert in Ha. lia.
  - unfold calloc. rewrite length_insert. intros [= <- <-] Hle Ha.
    pose proof (lookup_lt_Some _ _ _ Ha) as Hb.
    rewrite !length_insert, length_app, length_insert in Hb. simpl in Hb.
    assert (a = length h) as -> by lia.
    rewrite list_lookup_insert_eq in Ha by solve_length.
    injection Ha as <-. reflexivity.
Qed.

Lemma walk_new_weight (path : list Z) (h h' : heap) (i i' : ptr) (a : nat) (nd : node) :
  walk h i path = Some (h', i') ->
  (length h <= a)%nat -> h' !! a = Some nd -> weight nd = 0.
Proof.
  revert h i. induction path as [|pos rest IH]; intros h i; simpl.
  - intros [= <- <-] Hle Ha. apply lookup_lt_Some in Ha. lia.
  - destruct (visit h i pos) as [[h1 i1]|] eqn:Hv; [|discriminate].
    intros Hw Hle Ha.
    destruct (decide (length h1 <= a)%nat) as [Hge|Hlt]; [eapply IH; eauto|].
    destruct (lookup_lt_is_Some_2 h1 a) as [nd1 Hnd1]; [lia|].
    destruct (walk_weight_kept _ _ _ _ _ Hw _ _ Hnd1) as (nd' & Hnd' & Hk).
    rewrite Hnd' in Ha. injection Ha as <-. rewrite Hk.
    eapply visit_new_weight; eauto.
Qed.

(** The stores after the loop, spelled out. *)
Lemma finish_Some (h h' : heap) (i : ptr) (w : Z) :
  finish h i w = Some h' ->
  exists f nd, i = Some f /\ h !! f = Some nd /\
    h' = <[f := set_weight (set_letters_table nd (Z.lor (letters_table nd) (shl64 1 LLA)))
                           (to_uint32 w)]> h.
Proof.
  unfold finish. destruct i as [f|]; [|discriminate].
  destruct (h !! f) as [nd|] eqn:Hf; [|discriminate].
  intros [= <-]. eauto.
Qed.

Lemma insert_path_Some (h h' : heap) (r : ptr) (path : list Z) (w : Z) :
  insert_path h r path w = Some h' ->
  exists hw i, walk h r path = Some (hw, i) /\ finish hw i w = Some h'.
Proof.
  unfold insert_path. destruct (walk h r path) as [[hw i]|]; [|discriminate]. eauto.
Qed.

(** ** Membership only grows *)

(** C4: an insertion of a valid path that returns leaves every node of the
    heap allocated with every identifier it had still present ([|=] only
    adds bits).  In the test scenario of [main], the third insertion,
    [{1,2}], returns and the root, which had bit 0 and not bit 1, has both
    afterwards. *)
Theorem membership_is_monotone :
  (forall (h h' : heap) (r : ptr) (path : list Z) (w : Z),
      Forall valid_id path ->
      insert_path h r path w = Some h' ->
      forall (a : nat) (nd : node) (id : Z),
        h !! a = Some nd -> has_bit nd id = true ->
        exists nd', h' !! a = Some nd' /\ has_bit nd' id = true) /\
  (exists h2 h3 r2 r3,
      insert_all fresh root test2 = Some h2 /\
      insert_path h2 root [1; 2] 15 = Some h3 /\
      insert_all fresh root test3 = Some h3 /\
      load h2 root = Some r2 /\ load h3 root = Some r3 /\
      has_bit r2 0 = true /\ has_bit r2 1 = false /\
      has_bit r3 0 = true /\ has_bit r3 1 = true).
Proof.
  split.
  - intros h h' r path w _ Hins a nd id Ha Hbit.
    destruct (insert_path_Some _ _ _ _ _ Hins) as (hw & i & Hw & Hf).
    destruct (walk_bits_kept _ _ _ _ _ Hw _ _ Ha) as (nd1 & Ha1 & Hk).
    destruct (finish_Some _ _ _ _ Hf) as (f & ndf & -> & Hndf & ->).
    destruct (decide (f = a)) as [->|Hne].
    + rewrite Hndf in Ha1. injection Ha1 as ->.
      eexists. split.
      * apply list_lookup_insert_eq. eapply lookup_lt_Some; eauto.
      * unfold has_bit. simpl. apply bit_set_lor. apply Hk, Hbit.
    + exists nd1. rewrite list_lookup_insert_ne by done. auto.
  - eexists _, _, _, _.
    split; [vm_compute; reflexivity|].
    repeat split; vm_compute; reflexivity.
Qed.

Lemma membership_is_monotone_witness :
  exists nd', [mk_node 36 (Some 1%nat) 0; mk_node 0 None 9] !! 0%nat = Some nd' /\
              has_bit nd' 5 = true.
Proof.
  refine (proj1 membership_is_monotone
            [mk_node 32 (Some 1%nat) 0; mk_node 0 None 7] _ root [2] 9 _ _
            0%nat (mk_node 32 (Some 1%nat) 0) 5 _ _).
  - repeat constructor; unfold valid_id, LLA; lia.
  - vm_compute; reflexivity.
  - reflexivity.
  - vm_compute; reflexivity.
Defined.

(** ** One weight is written *)

(** C10: an insertion that returns stores the weight on the node the loop
    has left the cursor on, and on no other: every other node that existed
    before keeps its weight, and every other node allocated during the call
    has the weight 0 of a zeroed allocation. *)
Theorem insert_writes_one_weight (h h' : heap) (r : ptr) (path : list Z) (w : Z) :
  insert_path h r path w = Some h' ->
  exists hw f ndf,
    walk h r path = Some (hw, Some f) /\
    h' !! f = Some ndf /\ weight ndf = to_uint32 w /\
    (0 <= w < 2 ^ 32 -> weight ndf = w) /\
    (forall a nd, a <> f -> h !! a = Some nd ->
       exists nd', h' !! a = Some nd' /\ weight nd' = weight nd) /\
    (forall a nd, a <> f -> (length h <= a)%nat -> h' !! a = Some nd -> weight nd = 0).
Proof.
  intros Hins.
  destruct (insert_path_Some _ _ _ _ _ Hins) as (hw & i & Hw & Hf).
  destruct (finish_Some _ _ _ _ Hf) as (f & ndf & -> & Hndf & ->).
  eexists hw, f, _. split; [exact Hw|].
  split; [apply list_lookup_insert_eq; eapply lookup_lt_Some; eauto|].
  split; [reflexivity|].
  split; [intros Hrange; apply Z.mod_small, Hrange|]. split.
  - intros a nd Hne Ha.
    destruct (walk_weight_kept _ _ _ _ _ Hw _ _ Ha) as (nd1 & Ha1 & Hk).
    exists nd1. rewrite list_lookup_insert_ne by done. auto.
  - intros a nd Hne Hle Ha. rewrite list_lookup_insert_ne in Ha by done.
    eapply walk_new_weight; eauto.
Qed.

Lemma insert_writes_one_weight_witness :
  exists hw f ndf,
    walk [mk_node 1 (Some 1%nat) 0; mk_node 2 (Some 2%nat) 0; mk_node 0 None 10]
         root [0; 1; 2] = Some (hw, Some f) /\
    [mk_node 1 (Some 3%nat) 0; mk_node 2 (Some 2%nat) 0; mk_node 0 None 10;
     mk_node 2 (Some 4%nat) 0; mk_node 4 (Some 5%nat) 0; mk_node 0 (Some 1%nat) 25]
      !! f = Some ndf /\
    weight ndf = to_uint32 25 /\
    (0 <= 25 < 2 ^ 32 -> weight ndf = 25) /\
    (forall a nd, a <> f ->
       [mk_node 1 (Some 1%nat) 0; mk_node 2 (Some 2%nat) 0; mk_node 0 None 10] !! a = Some nd ->
       exists nd',
         [mk_node 1 (Some 3%nat) 0; mk_node 2 (Some 2%nat) 0; mk_node 0 None 10;
          mk_node 2 (Some 4%nat) 0; mk_node 4 (Some 5%nat) 0; mk_node 0 (Some 1%nat) 25]
           !! a = Some nd' /\ weight nd' = weight nd) /\
    (forall a nd, a <> f -> (3 <= a)%nat ->
       [mk_node 1 (Some 3%nat) 0; mk_node 2 (Some 2%nat) 0; mk_node 0 None 10;
        mk_node 2 (Some 4%nat) 0; mk_node 4 (Some 5%nat) 0; mk_node 0 (Some 1%nat) 25]
          !! a = Some nd -> weight nd = 0).
Proof.
  apply (insert_writes_one_weight
           [mk_node 1 (Some 1%nat) 0; mk_node 2 (Some 2%nat) 0; mk_node 0 None 10]
           _ root [0; 1; 2] 25).
  vm_compute; reflexivity.
Defined.

(** ** Two identifiers at the same depth *)



(** ** Paths the specification wants rejected *)

Lemma set_letters_table_same (nd : node) : set_letters_table nd (letters_table nd) = nd.
Proof. destruct nd; reflexivity. Qed.

(** C9, the claim as stated is false: the insertion of the empty path
    returns and has stored the weight, on the root. *)
Lemma insert_empty_path_stores_weight :
  exists h r0,
    insert_path fresh root [] 7 = Some h /\
    h <> fresh /\
    load h root = Some r0 /\ weight r0 = 7.
Proof.
  eexists _, _. split; [vm_compute; reflexivity|].
  split; [discriminate|]. split; reflexivity.
Qed.

(** C9, amended: there is no check for an empty path and no error result.
    With [path_len = 0] the loop is skipped and the two stores after it hit
    the root itself: the end mark is or-ed into the root's bitmask, the
    weight is stored on the root, and nothing else in the heap changes. *)
Theorem insert_empty_path_hits_root (h : heap) (a : nat) (nd : node) (w : Z) :
  h !! a = Some nd ->
  insert_path h (Some a) [] w
  = Some (<[a := mk_node (Z.lor (letters_table nd) (shl64 1 LLA)) (next nd) (to_uint32 w)]> h).
Proof.
  intros Ha. unfold insert_path, walk, finish. rewrite Ha. reflexivity.
Qed.

Lemma insert_empty_path_hits_root_witness :
  insert_path fresh (Some 0%nat) [] 7
  = Some (<[0%nat := mk_node (Z.lor (letters_table zero_node) (shl64 1 LLA))
                             (next zero_node) (to_uint32 7)]> fresh).
Proof.
  apply (insert_empty_path_hits_root fresh 0 zero_node 7). reflexivity.
Defined.

(** ** The chain as a list *)

Lemma list_at_inj (h : heap) (p : ptr) (l1 l2 : list nat) :
  list_at h p l1 -> list_at h p l2 -> l1 = l2.
Proof.
  intros H1. revert l2. induction H1 as [|a nd l Ha _ IH]; intros l2 H2.
  - inversion H2. reflexivity.
  - inversion H2 as [|a' nd' l' Ha' Hl']; subst.
    rewrite Ha in Ha'. injection Ha' as <-. f_equal. apply IH, Hl'.
Qed.

Lemma list_at_allocated (h : heap) (p : ptr) (l : list nat) (a : nat) :
  list_at h p l -> a ∈ l -> (a < length h)%nat.
Proof.
  induction 1 as [|c nd l Hc _ IH]; intros Hin.
  - apply elem_of_nil in Hin. contradiction.
  - apply elem_of_cons in Hin as [->|Hin]; [|auto].
    eapply lookup_lt_Some; eauto.
Qed.

(** The chain does not depend on nodes that are not on it. *)
Lemma list_at_ext (h h' : heap) (p : ptr) (l : list nat) :
  list_at h p l -> (forall a, a ∈ l -> h' !! a = h !! a) -> list_at h' p l.
Proof.
  induction 1 as [|c nd l Hc _ IH]; intros Hext.
  - constructor.
  - apply list_at_node with (nd := nd).
    + rewrite Hext; [exact Hc|]. apply elem_of_cons; auto.
    + apply IH. intros a Ha. apply Hext, elem_of_cons; auto.
Qed.

(** Stepping along a chain: [n] steps succeed exactly when the chain has
    [n] nodes, and leave the cursor at the rest of the chain. *)
Lemma list_at_advance (h : heap) (n : nat) :
  forall (p : ptr) (l : list nat),
    list_at h p l -> (n <= length l)%nat ->
    exists q, advance h p n = Some q /\ list_at h q (drop n l).
Proof.
  induction n as [|n IH]; intros p l Hl Hn.
  - exists p. rewrite drop_0. auto.
  - destruct Hl as [|a nd l Ha Hl]; [simpl in Hn; lia|].
    simpl in *. rewrite Ha. apply IH; [exact Hl|lia].
Qed.

Lemma advance_within (h : heap) (n : nat) :
  forall (p q : ptr) (l : list nat),
    list_at h p l -> advance h p n = Some q -> (n <= length l)%nat.
Proof.
  induction n as [|n IH]; intros p q l Hl Hadv; [lia|].
  destruct Hl as [|a nd l Ha Hl]; [discriminate|].
  simpl in *. rewrite Ha in Hadv. apply (IH _ _ _ Hl) in Hadv. lia.
Qed.

(** Stepping reads only the links of the nodes it passes. *)
Lemma advance_ext (h h' : heap) (n : nat) :
  forall (p : ptr) (l : list nat),
    list_at h p l -> (n <= length l)%nat ->
    (forall a, a ∈ take n l -> next <$> h' !! a = next <$> h !! a) ->
    advance h' p n = advance h p n.
Proof.
  induction n as [|n IH]; intros p l Hl Hn Hext; [reflexivity|].
  destruct Hl as [|a nd l Ha Hl]; [simpl in Hn; lia|].
  simpl in *.
  pose proof (Hext a ltac:(apply elem_of_cons; auto)) as Hnext.
  rewrite Ha in *. destruct (h' !! a) as [nd'|]; [|discriminate].
  simpl in Hnext. injection Hnext as ->.
  apply IH with (l := l); [exact Hl|lia|].
  intros b Hb. apply Hext, elem_of_cons; auto.
Qed.

(** A chain that reaches NULL passes no node twice. *)
Lemma list_at_NoDup (h : heap) (p : ptr) (l : list nat) : list_at h p l -> NoDup l.
Proof.
  induction 1 as [|a nd l Ha Hl IH]; constructor; [|exact IH].
  intros Hin. apply list_elem_of_lookup in Hin as [k Hk].
  assert (k < length l)%nat as Hlt by (eapply lookup_lt_Some; eauto).
  destruct (list_at_advance h k _ _ Hl ltac:(lia)) as (q & _ & Hq).
  rewrite (drop_S _ _ _ Hk) in Hq.
  assert (list_at h (Some a) (a :: l)) as Hfull by (econstructor; eauto).
  inversion Hq as [|a' nd' l' Ha' Hl' Heq]; subst.
  pose proof (list_at_inj _ _ _ _ Hq Hfull) as Hsame.
  apply (f_equal length) in Hsame. simpl in Hsame.
  rewrite length_drop in Hsame. lia.
Qed.

Lemma fresh_is_chain : list_at fresh root [0%nat].
Proof. apply list_at_node with (nd := zero_node); [reflexivity|constructor]. Qed.

(** ** The loop body on a chain *)

(** The loop body, with the cursor on an allocated node. *)
Lemma visit_eq (h : heap) (a : nat) (nd : node) (pos : Z) :
  h !! a = Some nd ->
  visit h (Some a) pos =
    let nd1 := set_letters_table nd (Z.lor (letters_table nd) (shl64 1 pos)) in
    let h1 := <[a := nd1]> h in
    if 0 <? count_uper_bits nd1 pos then
      match advance h1 (Some a) (Z.to_nat (count_uper_bits nd1 pos)) with
      | Some i' => Some (h1, i')
      | None => None
      end
    else
      Some (<[length h := set_next zero_node (next nd)]>
              (<[a := set_next nd1 (Some (length h))]> (h1 ++ [zero_node])),
            Some (length h)).
Proof.
  intros Ha. unfold visit, calloc. rewrite Ha. cbv zeta.
  rewrite length_insert. reflexivity.
Qed.

Lemma walk_cons (h : heap) (i : ptr) (pos : Z) (rest : list Z) :
  walk h i (pos :: rest) =
    match visit h i pos with
    | Some (h', i') => walk h' i' rest
    | None => None
    end.
Proof. reflexivity. Qed.

(** The heap after the allocating branch, node by node. *)
Lemma spliced_lookup (h : heap) (a b : nat) (nd1 : node) (p : ptr) :
  (a < length h)%nat ->
  (<[length h := set_next zero_node p]>
     (<[a := set_next nd1 (Some (length h))]> (<[a := nd1]> h ++ [zero_node]))) !! b
  = if decide (b = length h) then Some (set_next zero_node p)
    else if decide (b = a) then Some (set_next nd1 (Some (length h)))
    else h !! b.
Proof.
  intros Ha.
  destruct (decide (b = length h)) as [->|Hnew].
  - rewrite list_lookup_insert_eq by solve_length. reflexivity.
  - rewrite list_lookup_insert_ne by done.
    destruct (decide (b = a)) as [->|Hne].
    + rewrite list_lookup_insert_eq by solve_length. reflexivity.
    + rewrite list_lookup_insert_ne by done.
      destruct (decide (b < length h)%nat) as [Hlt|Hge].
      * rewrite lookup_app_l by solve_length.
        rewrite list_lookup_insert_ne by done. reflexivity.
      * rewrite !lookup_ge_None_2; [reflexivity|lia|solve_length].
Qed.

(** One iteration started on a well-formed chain [l] leaves the cursor on
    a well-formed chain that no longer contains the node it started on; the
    new chain is made of nodes of [l] and possibly the node just allocated;
    nodes off the chain are untouched. *)
Lemma visit_chain (h h' : heap) (a : nat) (i' : ptr) (l : list nat) (pos : Z) :
  list_at h (Some a) l ->
  visit h (Some a) pos = Some (h', i') ->
  exists l',
    list_at h' i' l' /\
    (a ∉ l') /\
    (forall b, b ∈ l' -> b ∈ l \/ b = length h) /\
    (forall b, b ∉ l -> (b < length h)%nat -> h' !! b = h !! b).
Proof.
  intros Hl Hv.
  pose proof (list_at_NoDup _ _ _ Hl) as Hnd.
  inversion Hl as [|a' nd t Ha Ht]; subst.
  apply NoDup_cons in Hnd as [Hat Hndt].
  pose proof (lookup_lt_Some _ _ _ Ha) as Hlt.
  rewrite (visit_eq _ _ _ _ Ha) in Hv. cbv zeta in Hv.
  set (nd1 := set_letters_table nd _) in *.
  assert (list_at (<[a := nd1]> h) (Some a) (a :: t)) as Hl1.
  { apply list_at_node with (nd := nd1).
    - apply list_lookup_insert_eq. exact Hlt.
    - apply list_at_ext with (h := h); [exact Ht|].
      intros b Hb. apply list_lookup_insert_ne. intros ->. contradiction. }
  destruct (0 <? count_uper_bits nd1 pos) eqn:Hn.
  - destruct (advance _ _ _) as [q|] eqn:Hadv; [|discriminate].
    injection Hv as <- <-.
    apply Z.ltb_lt in Hn.
    pose proof (advance_within _ _ _ _ _ Hl1 Hadv) as Hk.
    destruct (list_at_advance _ _ _ _ Hl1 Hk) as (q' & Hq' & Hdrop).
    rewrite Hadv in Hq'. injection Hq' as <-.
    destruct (Z.to_nat (count_uper_bits nd1 pos)) as [|k] eqn:Hkk; [lia|].
    simpl in Hdrop.
    exists (drop k t). split; [exact Hdrop|].
    split; [|split].
    + intros Hin. apply Hat. exact (subseteq_drop k t a Hin).
    + intros b Hb. left. apply elem_of_cons. right. exact (subseteq_drop k t b Hb).
    + intros b Hb _. apply list_lookup_insert_ne. intros ->.
      apply Hb, elem_of_cons; auto.
  - injection Hv as <- <-.
    exists (length h :: t).
    assert (forall b, b ∈ t -> b <> a /\ b <> length h) as Ht'.
    { intros b Hb. split; [intros ->; contradiction|].
      pose proof (list_at_allocated _ _ _ _ Ht Hb). lia. }
    split; [|split; [|split]].
    + eapply list_at_node.
      * rewrite spliced_lookup by exact Hlt. rewrite decide_True by done. reflexivity.
      * simpl. apply list_at_ext with (h := h); [exact Ht|].
        intros b Hb. destruct (Ht' b Hb).
        rewrite spliced_lookup by exact Hlt. rewrite !decide_False by done. reflexivity.
    + intros Hin. apply elem_of_cons in Hin as [->|Hin]; [lia|contradiction].
    + intros b Hb. apply elem_of_cons in Hb as [->|Hb]; [auto|].
      left. apply elem_of_cons. auto.
    + intros b Hb Hblt. rewrite spliced_lookup by exact Hlt.
      rewrite !decide_False; [reflexivity| |lia].
      intros ->. apply Hb, elem_of_cons; auto.
Qed.

Lemma visit_length (h h' : heap) (i i' : ptr) (pos : Z) :
  visit h i pos = Some (h', i') -> (length h <= length h')%nat.
Proof. intros Hv. eapply preserved_length, visit_weight_kept, Hv. Qed.

(** The whole loop on a well-formed chain: nodes off the chain it starts
    on are untouched, and the chain it ends on is well formed. *)
Lemma walk_frame (path : list Z) :
  forall (h h' : heap) (p p' : ptr) (l : list nat),
    list_at h p l ->
    walk h p path = Some (h', p') ->
    (forall b, b ∉ l -> (b < length h)%nat -> h' !! b = h !! b) /\
    exists l', list_at h' p' l'.
Proof.
  induction path as [|pos rest IH]; intros h h' p p' l Hl Hw; simpl in Hw.
  - injection Hw as <- <-. split; [reflexivity|eauto].
  - destruct (visit h p pos) as [[h1 p1]|] eqn:Hv; [|discriminate].
    destruct p as [a|]; [|discriminate].
    destruct (visit_chain _ _ _ _ _ _ Hl Hv) as (l1 & Hl1 & _ & Hsub & Hfr).
    destruct (IH _ _ _ _ _ Hl1 Hw) as [Hfr' Hwf].
    split; [|exact Hwf].
    intros b Hb Hblt.
    pose proof (visit_length _ _ _ _ _ Hv) as Hlen.
    rewrite Hfr'; [apply Hfr; assumption| |lia].
    intros Hin. destruct (Hsub _ Hin); [contradiction|lia].
Qed.

(** ** Counting above a lone bit *)

Lemma upper_positions_spec (pos j : Z) : j ∈ upper_positions pos -> pos < j < LLA.
Proof.
  unfold upper_positions. intros Hj.
  apply list_elem_of_In, in_map_iff in Hj as (k & <- & Hk).
  apply in_seq in Hk. lia.
Qed.

Lemma count_none (t : Z) (L : list Z) (c : Z) :
  (forall j, j ∈ L -> bit_set t j = false) ->
  fold_left (fun count j => if bit_set t j then count + 1 else count) L c = c.
Proof.
  revert c. induction L as [|j L IH]; intros c Hall; [reflexivity|].
  simpl. rewrite (Hall j) by (apply elem_of_cons; auto).
  apply IH. intros k Hk. apply Hall, elem_of_cons; auto.
Qed.

(** A bitmask that holds nothing but the bit just set has no bit above it. *)
Lemma count_uper_bits_single (nd : node) (pos : Z) :
  letters_table nd = shl64 1 pos -> count_uper_bits nd pos = 0.
Proof.
  intros Ht. unfold count_uper_bits. rewrite Ht.
  apply count_none. intros j Hj. apply upper_positions_spec in Hj. unfold LLA in Hj.
  destruct (Z_lt_dec j 0) as [Hneg|Hnn]; [apply bit_set_out_of_range; auto|].
  rewrite bit_set_testbit by lia.
  destruct (Z_lt_dec pos 0) as [Hpneg|Hpnn].
  - rewrite shl64_negative by lia. apply Z.bits_0.
  - rewrite shl64_valid by lia. apply Z.pow2_bits_false. lia.
Qed.

Lemma count_uper_bits_table (x y : node) (pos : Z) :
  letters_table x = letters_table y -> count_uper_bits x pos = count_uper_bits y pos.
Proof. unfold count_uper_bits. intros ->. reflexivity. Qed.

(** ** Inserting the same path again *)

(** Once the cursor sits on a node with an empty bitmask, every further
    iteration allocates: the loop cannot fault, ends on an allocated node,
    and writes to no node other than the one it started on and those it
    allocates. *)
Lemma walk_from_zeroed (rest : list Z) :
  forall (H : heap) (y : nat) (ndy : node),
    H !! y = Some ndy -> letters_table ndy = 0 ->
    exists H' y',
      walk H (Some y) rest = Some (H', Some y') /\
      is_Some (H' !! y') /\
      (forall b x, b <> y -> H !! b = Some x ->
         exists x', H' !! b = Some x' /\ table_kept x x').
Proof.
  induction rest as [|pos rest IH]; intros H y ndy Hy Hzero.
  - exists H, y. split; [reflexivity|]. split; [eauto|].
    intros b x _ Hb. exists x. split; [exact Hb|reflexivity].
  - pose proof (lookup_lt_Some _ _ _ Hy) as Hlt.
    rewrite walk_cons, (visit_eq _ _ _ _ Hy). cbv zeta.
    rewrite count_uper_bits_single by (simpl; rewrite Hzero; apply Z.lor_0_l).
    change (0 <? 0) with false. cbv iota.
    set (H4 := <[length H := _]> _).
    assert (forall b, H4 !! b = if decide (b = length H) then Some (set_next zero_node (next ndy))
                                else if decide (b = y) then
                                  Some (set_next (set_letters_table ndy
                                          (Z.lor (letters_table ndy) (shl64 1 pos)))
                                          (Some (length H)))
                                else H !! b) as HH4
      by (intros b; apply spliced_lookup; exact Hlt).
    destruct (IH H4 (length H) (set_next zero_node (next ndy))) as (H' & y' & Hw & Hsome & Hpres).
    { rewrite HH4, decide_True by done. reflexivity. }
    { reflexivity. }
    exists H', y'. split; [exact Hw|]. split; [exact Hsome|].
    intros b x Hby Hb.
    pose proof (lookup_lt_Some _ _ _ Hb) as Hblt.
    apply Hpres; [lia|].
    rewrite HH4, !decide_False by (done || lia). exact Hb.
Qed.

(** Or-ing a bit into the node at the head of a chain keeps the chain. *)
Lemma list_at_or (h : heap) (a : nat) (nd : node) (t : list nat) (v : Z) :
  list_at h (Some a) (a :: t) -> h !! a = Some nd ->
  list_at (<[a := set_letters_table nd v]> h) (Some a) (a :: t).
Proof.
  intros Hl Ha.
  pose proof (list_at_NoDup _ _ _ Hl) as Hnd. apply NoDup_cons in Hnd as [Hat _].
  inversion Hl as [|a' nd' t' Ha' Ht]; subst.
  rewrite Ha in Ha'. injection Ha' as <-.
  apply list_at_node with (nd := set_letters_table nd v).
  - apply list_lookup_insert_eq. eapply lookup_lt_Some; eauto.
  - apply list_at_ext with (h := h); [exact Ht|].
    intros b Hb. apply list_lookup_insert_ne. intros ->. contradiction.
Qed.

(** Running the loop again, on the heap the first run has produced (up to
    weights).  As long as the first run stepped along the chain, the second
    run finds every bit already set, counts the same and steps to the same
    node; from the first iteration in which the first run allocated, the
    second run allocates too and continues on nodes of its own.  Either
    way it returns and leaves the bitmask of every node it found untouched. *)
Lemma rewalk (path : list Z) :
  forall (h hk H : heap) (p pk : ptr) (l : list nat),
    list_at h p l ->
    walk h p path = Some (hk, pk) ->
    preserved shape_kept hk H ->
    exists H' p',
      walk H p path = Some (H', p') /\
      preserved table_kept H H' /\
      (is_Some (load hk pk) -> is_Some (load H' p')).
Proof.
  induction path as [|pos rest IH]; intros h hk H p pk l Hl Hw Hshape.
  - simpl in Hw. injection Hw as <- <-.
    exists H, p. split; [reflexivity|]. split; [apply preserved_refl; reflexivity|].
    intros [x Hx]. destruct p as [a|]; [|discriminate]. simpl in *.
    destruct (Hshape _ _ Hx) as (x' & Hx' & _). eauto.
  - rewrite walk_cons in Hw.
    destruct (visit h p pos) as [[h1 p1]|] eqn:Hv; [|discriminate].
    destruct p as [a|]; [|discriminate].
    destruct (visit_chain _ _ _ _ _ _ Hl Hv) as (l1 & Hl1 & Hal1 & Hsub & _).
    destruct (walk_frame _ _ _ _ _ _ Hl1 Hw) as [Hfr _].
    pose proof (visit_length _ _ _ _ _ Hv) as Hlen.
    pose proof (list_at_NoDup _ _ _ Hl) as Hnodup.
    inversion Hl as [|a' nd t Ha Ht]; subst.
    pose proof (lookup_lt_Some _ _ _ Ha) as Hlt.
    rewrite (visit_eq _ _ _ _ Ha) in Hv. cbv zeta in Hv.
    pose proof (list_at_or _ _ _ _ (Z.lor (letters_table nd) (shl64 1 pos)) Hl Ha) as Hl'.
    set (nd1 := set_letters_table nd (Z.lor (letters_table nd) (shl64 1 pos))) in *.
    assert (exists ndH, H !! a = Some ndH /\ letters_table ndH = letters_table nd1)
      as (ndH & HaH & HtH).
    { assert (exists x, h1 !! a = Some x /\ letters_table x = letters_table nd1)
        as (x & Hx & Hxt).
      { destruct (0 <? count_uper_bits nd1 pos).
        - destruct (advance _ _ _); [|discriminate]. injection Hv as <- <-.
          exists nd1. split; [apply list_lookup_insert_eq; exact Hlt|reflexivity].
        - injection Hv as <- <-. eexists. rewrite spliced_lookup by exact Hlt.
          rewrite decide_False by lia. rewrite decide_True by done.
          split; reflexivity. }
      rewrite <- Hfr in Hx; [|exact Hal1|lia].
      destruct (Hshape _ _ Hx) as (ndH & HaH & [HtH _]).
      exists ndH. split; [exact HaH|congruence]. }
    pose proof (lookup_lt_Some _ _ _ HaH) as HltH.
    assert (Z.lor (letters_table ndH) (shl64 1 pos) = letters_table ndH) as Hidem.
    { rewrite HtH. unfold nd1. simpl. rewrite <- Z.lor_assoc, Z.lor_diag. reflexivity. }
    assert (count_uper_bits ndH pos = count_uper_bits nd1 pos) as Hcount
      by (apply count_uper_bits_table; exact HtH).
    rewrite walk_cons, (visit_eq _ _ _ _ HaH). cbv zeta.
    rewrite Hidem, set_letters_table_same, Hcount.
    destruct (0 <? count_uper_bits nd1 pos) eqn:Hn.
    + (* the first run stepped along the chain *)
      rewrite (list_insert_id _ _ _ HaH).
      destruct (advance (<[a := nd1]> h) (Some a) _) as [q|] eqn:Hadv; [|discriminate].
      injection Hv as <- <-.
      set (k := Z.to_nat (count_uper_bits nd1 pos)) in *.
      pose proof (advance_within _ _ _ _ _ Hl' Hadv) as Hk.
      destruct (list_at_advance _ _ _ _ Hl' Hk) as (q' & Hq' & Hdrop).
      rewrite Hadv in Hq'. injection Hq' as <-.
      pose proof (list_at_inj _ _ _ _ Hl1 Hdrop) as ->.
      rewrite <- (take_drop k (a :: t)) in Hnodup.
      apply NoDup_app in Hnodup as (_ & Hsplit & _).
      assert (advance H (Some a) k = Some q) as ->.
      { rewrite <- Hadv. apply advance_ext with (l := a :: t); [exact Hl'|exact Hk|].
        intros b Hb.
        assert (b < length (<[a := nd1]> h))%nat as Hb'
          by (eapply list_at_allocated; [exact Hl'|exact (subseteq_take k _ b Hb)]).
        destruct (lookup_lt_is_Some_2 _ _ Hb') as [xb Hxb].
        assert (hk !! b = Some xb) as Hkb by (rewrite Hfr; auto).
        destruct (Hshape _ _ Hkb) as (xH & HxH & [_ Hnext]).
        rewrite HxH, Hxb. simpl. rewrite Hnext. reflexivity. }
      exact (IH _ _ _ _ _ _ Hl1 Hw Hshape).
    + (* the first run allocated *)
      injection Hv as <- <-.
      set (H4 := <[length H := _]> _).
      assert (forall b, H4 !! b = if decide (b = length H) then Some (set_next zero_node (next ndH))
                                  else if decide (b = a) then
                                    Some (set_next ndH (Some (length H)))
                                  else H !! b) as HH4
        by (intros b; apply spliced_lookup; exact HltH).
      destruct (walk_from_zeroed rest H4 (length H) (set_next zero_node (next ndH)))
        as (H' & y' & HwH & Hsome & Hpres).
      { rewrite HH4, decide_True by done. reflexivity. }
      { reflexivity. }
      exists H', (Some y'). split; [exact HwH|]. split; [|intros _; exact Hsome].
      intros b x Hb.
      pose proof (lookup_lt_Some _ _ _ Hb) as Hblt.
      assert (exists x4, H4 !! b = Some x4 /\ table_kept x x4) as (x4 & Hx4 & Hk4).
      { rewrite HH4, decide_False by lia.
        destruct (decide (b = a)) as [->|Hne].
        - eexists. split; [reflexivity|]. rewrite HaH in Hb. injection Hb as <-. reflexivity.
        - exists x. split; [exact Hb|reflexivity]. }
      destruct (Hpres b x4 ltac:(lia) Hx4) as (x' & Hx' & Hk').
      exists x'. split; [exact Hx'|]. unfold table_kept in *. congruence.
Qed.

(** C5: inserting [0,1] with weight 10 twice.  The second insertion does
    not find the nodes of the first: no bit lies above 0 on the root, so it
    allocates, and goes on allocating.  The chain grows from three nodes to
    five, one of the new nodes receives bit 1, so the bitmasks along the
    chain are not what they were, and the weight goes to the other new
    node; the node the first insertion ended on is not written again. *)
Lemma reinsert_0_1_adds_bitmasks :
  exists h1 h2 hw1 hw2 n3,
    insert_path fresh root [0; 1] 10 = Some h1 /\
    insert_path h1 root [0; 1] 10 = Some h2 /\
    chain_tables h1 root = [1; 2; 0] /\
    chain_tables h2 root = [1; 2; 0; 2; 0] /\
    chain_tables h2 root <> chain_tables h1 root /\
    h1 !! 3%nat = None /\ h2 !! 3%nat = Some n3 /\ has_bit n3 1 = true /\
    walk fresh root [0; 1] = Some (hw1, Some 2%nat) /\
    walk h1 root [0; 1] = Some (hw2, Some 4%nat).
Proof.
  eexists _, _, _, _, _.
  split; [vm_compute; reflexivity|].
  split; [vm_compute; reflexivity|].
  split; [vm_compute; reflexivity|].
  split; [vm_compute; reflexivity|].
  split; [vm_compute; discriminate|].
  split; [reflexivity|].
  split; [reflexivity|].
  split; [reflexivity|].
  split; vm_compute; reflexivity.
Qed.

(** On a trie whose chain is well formed, if the insertion of a valid path
    returns, then inserting the same path with the same weight again
    returns as well, every node that existed after the first insertion has
    exactly the bitmask it had, and the node the second insertion ends on
    carries the weight. *)
Theorem reinsert_keeps_tables
    (h h1 : heap) (r : ptr) (l : list nat) (path : list Z) (w : Z) :
  list_at h r l ->
  Forall valid_id path ->
  insert_path h r path w = Some h1 ->
  exists h2 hw f ndf,
    insert_path h1 r path w = Some h2 /\
    (forall a nd, h1 !! a = Some nd ->
       exists nd', h2 !! a = Some nd' /\ letters_table nd' = letters_table nd) /\
    walk h1 r path = Some (hw, Some f) /\
    h2 !! f = Some ndf /\ weight ndf = to_uint32 w.
Proof.
  intros Hl _ Hins.
  destruct (insert_path_Some _ _ _ _ _ Hins) as (hk & i & Hw & Hf).
  destruct (finish_Some _ _ _ _ Hf) as (f0 & nd0 & -> & Hf0 & ->).
  set (h1 := <[f0 := _]> hk).
  assert (preserved shape_kept hk h1) as Hshape.
  { apply preserved_insert with (nd := nd0); [split; reflexivity|exact Hf0|].
    split; simpl; [rewrite end_mark_wraps; apply Z.lor_0_r|reflexivity]. }
  destruct (rewalk _ _ _ _ _ _ _ Hl Hw Hshape) as (H' & p' & HwH & Hpres & Hsome).
  destruct Hsome as [x Hx]; [simpl; eauto|].
  destruct p' as [f|]; [|discriminate]. simpl in Hx.
  eexists _, H', f, _.
  split; [unfold insert_path, finish; rewrite HwH, Hx; reflexivity|].
  pose proof (lookup_lt_Some _ _ _ Hx) as Hflt.
  split; [|split; [exact HwH|split]].
  - intros a nd Ha.
    destruct (Hpres _ _ Ha) as (nd' & Ha' & Hk).
    destruct (decide (f = a)) as [->|Hne].
    + rewrite list_lookup_insert_eq by exact Hflt.
      eexists. split; [reflexivity|]. simpl.
      rewrite end_mark_wraps, Z.lor_0_r. rewrite Hx in Ha'. injection Ha' as ->. exact Hk.
    + exists nd'. rewrite list_lookup_insert_ne by done. auto.
  - apply list_lookup_insert_eq. exact Hflt.
  - reflexivity.
Qed.

Lemma reinsert_keeps_tables_witness :
  exists h2 hw f ndf,
    insert_path [mk_node 36 (Some 1%nat) 0; mk_node 0 None 9] root [2] 9 = Some h2 /\
    (forall a nd, [mk_node 36 (Some 1%nat) 0; mk_node 0 None 9] !! a = Some nd ->
       exists nd', h2 !! a = Some nd' /\ letters_table nd' = letters_table nd) /\
    walk [mk_node 36 (Some 1%nat) 0; mk_node 0 None 9] root [2] = Some (hw, Some f) /\
    h2 !! f = Some ndf /\ weight ndf = to_uint32 9.
Proof.
  apply (reinsert_keeps_tables
           [mk_node 32 (Some 1%nat) 0; mk_node 0 None 7] _ root [0; 1]%nat [2] 9).
  - apply list_at_node with (nd := mk_node 32 (Some 1%nat) 0); [reflexivity|].
    apply list_at_node with (nd := mk_node 0 None 7); [reflexivity|constructor].
  - repeat constructor; unfold valid_id, LLA; lia.
  - vm_compute; reflexivity.
Defined.

(** The hypothesis on the chain cannot be dropped.  On a root whose chain
    runs in a circle through a second node, the first insertion of
    [2,1,3] comes back to the root and adds bit 3 there; the second one
    then counts one bit more above 2, lands on the root where the first
    had landed on the other node, and records identifier 1 on the root. *)
Lemma reinsert_on_a_cycle_adds_a_bit :
  let cyc := [mk_node 32 (Some 1%nat) 0; mk_node 256 (Some 0%nat) 0] in
  (forall l, ~ list_at cyc root l) /\
  exists h1 h2 r1 r2,
    insert_path cyc root [2; 1; 3] 4 = Some h1 /\
    insert_path h1 root [2; 1; 3] 4 = Some h2 /\
    h1 !! 0%nat = Some r1 /\ h2 !! 0%nat = Some r2 /\
    has_bit r1 1 = false /\ has_bit r2 1 = true.
Proof.
  intros cyc. split.
  - intros l Hl.
    inversion Hl as [|a0 n0 l0 Hn0 Hl0]; subst.
    injection Hn0 as <-. simpl in Hl0.
    inversion Hl0 as [|a1 n1 l1 Hn1 Hl1]; subst.
    injection Hn1 as <-. simpl in Hl1.
    pose proof (list_at_inj _ _ _ _ Hl Hl1) as Heq.
    apply (f_equal length) in Heq. simpl in Heq. lia.
  - eexists _, _, _, _.
    split; [vm_compute; reflexivity|].
    split; [vm_compute; reflexivity|].
    repeat split; vm_compute; reflexivity.
Qed.

(** ** Where the weight lands *)

Lemma walk_snoc (p : list Z) (x : Z) :
  forall (h : heap) (i : ptr),
    walk h i (p ++ [x]) =
      match walk h i p with
      | Some (h1, i1) => visit h1 i1 x
      | None => None
      end.
Proof.
  induction p as [|pos rest IH]; intros h i; simpl.
  - destruct (visit h i x) as [[h' i']|]; reflexivity.
  - destruct (visit h i pos) as [[h' i']|]; [apply IH|reflexivity].
Qed.

Lemma bit_set_lor_self (t id : Z) : valid_id id -> bit_set (Z.lor t (shl64 1 id)) id = true.
Proof.
  unfold valid_id, LLA. intros Hid.
  rewrite bit_set_testbit, Z.lor_spec, shl64_valid, Z.pow2_bits_true by lia.
  apply orb_true_r.
Qed.

(** What one iteration leaves on the node it started on: the identifier
    is recorded there, the weight is as it was. *)
Lemma visit_recorded (h h' : heap) (a : nat) (nd : node) (i' : ptr) (pos : Z) :
  h !! a = Some nd ->
  visit h (Some a) pos = Some (h', i') ->
  exists x, h' !! a = Some x /\
            letters_table x = Z.lor (letters_table nd) (shl64 1 pos) /\
            weight x = weight nd.
Proof.
  intros Ha Hv. pose proof (lookup_lt_Some _ _ _ Ha) as Hlt.
  rewrite (visit_eq _ _ _ _ Ha) in Hv. cbv zeta in Hv.
  destruct (0 <? _).
  - destruct (advance _ _ _); [|discriminate]. injection Hv as <- <-.
    eexists. split; [apply list_lookup_insert_eq; exact Hlt|]. split; reflexivity.
  - injection Hv as <- <-. eexists. rewrite spliced_lookup by exact Hlt.
    rewrite decide_False by lia. rewrite decide_True by done.
    split; [reflexivity|]. split; reflexivity.
Qed.

(** On a well-formed chain, the node an insertion ends on (the one that
    gets the end mark and the weight) is never the node the last identifier
    of the path was recorded on: the last iteration records the identifier
    on the node [a] and then moves the cursor to a different node [f].  The
    node [a] comes out of the call with the weight it had when the last
    iteration began. *)
Theorem weight_lands_past_last_identifier
    (h h' : heap) (r : ptr) (l : list nat) (p : list Z) (x w : Z) :
  list_at h r l ->
  valid_id x ->
  insert_path h r (p ++ [x]) w = Some h' ->
  exists h1 hw a f nd nda ndf,
    walk h r p = Some (h1, Some a) /\
    visit h1 (Some a) x = Some (hw, Some f) /\
    f <> a /\
    h1 !! a = Some nd /\
    h' !! a = Some nda /\ has_bit nda x = true /\ weight nda = weight nd /\
    h' !! f = Some ndf /\ weight ndf = to_uint32 w.
Proof.
  intros Hl Hx Hins.
  destruct (insert_path_Some _ _ _ _ _ Hins) as (hw & i & Hw & Hf).
  rewrite walk_snoc in Hw.
  destruct (walk h r p) as [[h1 i1]|] eqn:Hp; [|discriminate].
  destruct i1 as [a|]; [|discriminate].
  destruct (finish_Some _ _ _ _ Hf) as (f & ndf0 & -> & Hndf & ->).
  destruct (walk_frame _ _ _ _ _ _ Hl Hp) as [_ [l1 Hl1]].
  destruct (visit_chain _ _ _ _ _ _ Hl1 Hw) as (l' & Hl' & Hal' & _ & _).
  assert (f <> a) as Hne.
  { intros ->. apply Hal'. inversion Hl'; subst. apply elem_of_cons; auto. }
  inversion Hl1 as [|a' nd t Ha Ht]; subst.
  destruct (visit_recorded _ _ _ _ _ _ Ha Hw) as (nda & Hnda & Htab & Hwt).
  exists h1, hw, a, f, nd, nda. eexists.
  split; [reflexivity|]. split; [exact Hw|]. split; [exact Hne|].
  split; [exact Ha|].
  split; [rewrite list_lookup_insert_ne by done; exact Hnda|].
  split; [unfold has_bit; rewrite Htab; apply bit_set_lor_self, Hx|].
  split; [exact Hwt|].
  split; [apply list_lookup_insert_eq; eapply lookup_lt_Some; eauto|reflexivity].
Qed.

Lemma weight_lands_past_last_identifier_witness :
  exists h1 hw a f nd nda ndf,
    walk fresh root [0] = Some (h1, Some a) /\
    visit h1 (Some a) 1 = Some (hw, Some f) /\
    f <> a /\
    h1 !! a = Some nd /\
    [mk_node 1 (Some 1%nat) 0; mk_node 2 (Some 2%nat) 0; mk_node 0 None 10] !! a = Some nda /\
    has_bit nda 1 = true /\ weight nda = weight nd /\
    [mk_node 1 (Some 1%nat) 0; mk_node 2 (Some 2%nat) 0; mk_node 0 None 10] !! f = Some ndf /\
    weight ndf = to_uint32 10.
Proof.
  apply (weight_lands_past_last_identifier fresh _ root [0%nat] [0] 1 10).
  - exact fresh_is_chain.
  - unfold valid_id, LLA; lia.
  - vm_compute; reflexivity.
Defined.

(** ** Well-formedness of the chain is an invariant *)

(** The chain depends on the links only. *)
Lemma list_at_links (h h' : heap) (p : ptr) (l : list nat) :
  list_at h p l ->
  (forall a x, a ∈ l -> h !! a = Some x -> exists x', h' !! a = Some x' /\ next x' = next x) ->
  list_at h' p l.
Proof.
  induction 1 as [|c nd l Hc _ IH]; intros Hlinks.
  - constructor.
  - destruct (Hlinks c nd ltac:(apply elem_of_cons; auto) Hc) as (nd' & Hc' & Hnext).
    apply list_at_node with (nd := nd'); [exact Hc'|].
    rewrite Hnext. apply IH. intros a x Ha. apply Hlinks, elem_of_cons; auto.
Qed.

(** The part of a chain that starts at one of its nodes. *)
Lemma list_at_suffix (h : heap) (L1 : list nat) :
  forall (p : ptr) (a : nat) (L2 : list nat),
    list_at h p (L1 ++ a :: L2) -> list_at h (Some a) (a :: L2).
Proof.
  induction L1 as [|c L1 IH]; intros p a L2 Hl; simpl in Hl.
  - inversion Hl; subst. exact Hl.
  - inversion Hl as [|c' x l' Hc Hrest]; subst. eapply IH, Hrest.
Qed.

(** The allocating branch, seen from the root: the new node enters the
    chain right after the cursor. *)
Lemma list_at_splice (h : heap) (a : nat) (nd nd1 : node) (L2 : list nat) (L1 : list nat) :
  forall (p : ptr),
    list_at h p (L1 ++ a :: L2) ->
    h !! a = Some nd ->
    list_at (<[length h := set_next zero_node (next nd)]>
               (<[a := set_next nd1 (Some (length h))]> (<[a := nd1]> h ++ [zero_node])))
            p (L1 ++ a :: length h :: L2).
Proof.
  induction L1 as [|c L1 IH]; intros p Hl Ha; simpl in *.
  - pose proof (lookup_lt_Some _ _ _ Ha) as Hlt.
    pose proof (list_at_NoDup _ _ _ Hl) as Hnd. apply NoDup_cons in Hnd as [Hat _].
    inversion Hl as [|a' nd' t Ha' Ht]; subst.
    rewrite Ha in Ha'. injection Ha' as <-.
    eapply list_at_node.
    { rewrite spliced_lookup by exact Hlt.
      rewrite decide_False by lia. rewrite decide_True by done. reflexivity. }
    simpl. eapply list_at_node.
    { rewrite spliced_lookup by exact Hlt. rewrite decide_True by done. reflexivity. }
    simpl. apply list_at_ext with (h := h); [exact Ht|].
    intros b Hb. pose proof (list_at_allocated _ _ _ _ Ht Hb).
    rewrite spliced_lookup by exact Hlt.
    rewrite !decide_False; [reflexivity| |lia]. intros ->. contradiction.
  - pose proof (lookup_lt_Some _ _ _ Ha) as Hlt.
    pose proof (list_at_NoDup _ _ _ Hl) as Hnd. apply NoDup_cons in Hnd as [Hc _].
    inversion Hl as [|c' x t Hx Ht]; subst.
    pose proof (lookup_lt_Some _ _ _ Hx) as Hclt.
    apply list_at_node with (nd := x); [|apply IH; assumption].
    rewrite spliced_lookup by exact Hlt.
    rewrite !decide_False; [exact Hx| |lia].
    intros ->. apply Hc, elem_of_app. right. apply elem_of_cons. auto.
Qed.

(** One iteration keeps the chain from the root well formed, and leaves
    the cursor on it (or at NULL). *)
Lemma visit_root_chain (h h' : heap) (r i' : ptr) (a : nat) (L : list nat) (pos : Z) :
  list_at h r L -> a ∈ L ->
  visit h (Some a) pos = Some (h', i') ->
  exists L', list_at h' r L' /\ (forall f, i' = Some f -> f ∈ L').
Proof.
  intros Hl Hin Hv.
  apply list_elem_of_split in Hin as (L1 & L2 & ->).
  pose proof (list_at_suffix _ _ _ _ _ Hl) as Hsuf.
  inversion Hsuf as [|a' nd t Ha Ht]; subst.
  pose proof (lookup_lt_Some _ _ _ Ha) as Hlt.
  rewrite (visit_eq _ _ _ _ Ha) in Hv. cbv zeta in Hv.
  set (nd1 := set_letters_table nd _) in *.
  destruct (0 <? count_uper_bits nd1 pos).
  - destruct (advance _ _ _) as [q|] eqn:Hadv; [|discriminate].
    injection Hv as <- <-.
    assert (forall p l, list_at h p l -> list_at (<[a := nd1]> h) p l) as Hkeep.
    { intros p l Hpl. apply list_at_links with (h := h); [exact Hpl|].
      intros b x _ Hb. destruct (decide (a = b)) as [<-|Hne].
      - rewrite list_lookup_insert_eq by exact Hlt. eexists. split; [reflexivity|].
        rewrite Ha in Hb. injection Hb as <-. reflexivity.
      - exists x. rewrite list_lookup_insert_ne by done. auto. }
    exists (L1 ++ a :: L2). split; [apply Hkeep, Hl|].
    intros f ->.
    pose proof (Hkeep _ _ Hsuf) as Hsuf1.
    pose proof (advance_within _ _ _ _ _ Hsuf1 Hadv) as Hk.
    destruct (list_at_advance _ _ _ _ Hsuf1 Hk) as (q' & Hq' & Hdrop).
    rewrite Hadv in Hq'. injection Hq' as <-.
    apply elem_of_app. right.
    apply (subseteq_drop (Z.to_nat (count_uper_bits nd1 pos)) (a :: L2)).
    inversion Hdrop; subst. apply elem_of_cons; auto.
  - injection Hv as <- <-.
    exists (L1 ++ a :: length h :: L2). split.
    + apply list_at_splice; assumption.
    + intros f [= <-]. apply elem_of_app. right.
      apply elem_of_cons. right. apply elem_of_cons. auto.
Qed.

Lemma walk_root_chain (path : list Z) :
  forall (h h' : heap) (r i i' : ptr) (L : list nat),
    list_at h r L -> (forall a, i = Some a -> a ∈ L) ->
    walk h i path = Some (h', i') ->
    exists L', list_at h' r L' /\ (forall f, i' = Some f -> f ∈ L').
Proof.
  induction path as [|pos rest IH]; intros h h' r i i' L Hl Hi Hw.
  - simpl in Hw. injection Hw as <- <-. eauto.
  - rewrite walk_cons in Hw.
    destruct (visit h i pos) as [[h1 i1]|] eqn:Hv; [|discriminate].
    destruct i as [a|]; [|discriminate].
    destruct (visit_root_chain _ _ _ _ _ _ _ Hl (Hi a eq_refl) Hv) as (L1 & Hl1 & Hi1).
    exact (IH _ _ _ _ _ _ Hl1 Hi1 Hw).
Qed.

Lemma insert_path_keeps_chain (h h' : heap) (r : ptr) (L : list nat) (path : list Z) (w : Z) :
  list_at h r L -> insert_path h r path w = Some h' -> exists L', list_at h' r L'.
Proof.
  intros Hl Hins.
  destruct (insert_path_Some _ _ _ _ _ Hins) as (hw & i & Hw & Hf).
  assert (forall a, r = Some a -> a ∈ L) as Hr.
  { intros a ->. inversion Hl; subst. apply elem_of_cons; auto. }
  destruct (walk_root_chain _ _ _ _ _ _ _ Hl Hr Hw) as (L' & Hl' & _).
  destruct (finish_Some _ _ _ _ Hf) as (f & ndf & -> & Hndf & ->).
  exists L'. apply list_at_links with (h := hw); [exact Hl'|].
  intros b x _ Hb. destruct (decide (f = b)) as [<-|Hne].
  - rewrite list_lookup_insert_eq by (eapply lookup_lt_Some; eauto).
    eexists. split; [reflexivity|]. rewrite Hndf in Hb. injection Hb as <-. reflexivity.
  - exists x. rewrite list_lookup_insert_ne by done. auto.
Qed.

Lemma insert_all_keeps_chain (calls : list (list Z * Z)) :
  forall (h h' : heap) (r : ptr) (L : list nat),
    list_at h r L -> insert_all h r calls = Some h' -> exists L', list_at h' r L'.
Proof.
  induction calls as [|[path w] calls IH]; intros h h' r L Hl Hall; simpl in Hall.
  - injection Hall as <-. eauto.
  - destruct (insert_path h r path w) as [h1|] eqn:Hins; [|discriminate].
    destruct (insert_path_keeps_chain _ _ _ _ _ _ Hl Hins) as (L1 & Hl1).
    exact (IH _ _ _ _ Hl1 Hall).
Qed.

(** Every trie built from a freshly allocated root by insertions that
    return is a chain: following [next] from the root reaches NULL and
    passes no node twice. *)
Theorem built_tries_are_chains (calls : list (list Z * Z)) (h : heap) :
  insert_all fresh root calls = Some h ->
  exists L, list_at h root L /\ NoDup L.
Proof.
  intros Hall.
  destruct (insert_all_keeps_chain _ _ _ _ _ fresh_is_chain Hall) as (L & Hl).
  exists L. split; [exact Hl|]. eapply list_at_NoDup, Hl.
Qed.

Lemma built_tries_are_chains_witness :
  exists L,
    list_at [mk_node 48 (Some 1%nat) 0; mk_node 0 None 9] root L /\ NoDup L.
Proof.
  apply (built_tries_are_chains [([5], 7); ([4], 9)]).
  vm_compute; reflexivity.
Defined.

(** ** What count_uper_bits computes *)

Lemma count_step (t : Z) (L : list Z) (c : Z) :
  c <= fold_left (fun count j => if bit_set t j then count + 1 else count) L c
    <= c + Z.of_nat (length L).
Proof.
  revert c. induction L as [|j L IH]; intros c; simpl; [lia|].
  destruct (bit_set t j).
  - specialize (IH (c + 1)). lia.
  - specialize (IH c). lia.
Qed.

Lemma upper_positions_length (pos : Z) :
  Z.of_nat (length (upper_positions pos)) = Z.max 0 (63 - pos).
Proof.
  unfold upper_positions, LLA. rewrite length_map, length_seq. lia.
Qed.

Lemma count_uper_bits_nonneg (nd : node) (pos : Z) : 0 <= count_uper_bits nd pos.
Proof. unfold count_uper_bits. apply count_step. Qed.

(** The result of [count_uper_bits] is never negative and never exceeds
    the number of positions above [pos]: for [pos] in [0, 64) it lies
    between 0 and [63 - pos], so the [int] counter cannot overflow and the
    stepping loop of [insert_path] runs at most 63 times. *)
Theorem count_uper_bits_bounds (nd : node) (pos : Z) :
  0 <= count_uper_bits nd pos <= Z.max 0 (63 - pos).
Proof.
  unfold count_uper_bits.
  pose proof (count_step (letters_table nd) (upper_positions pos) 0) as H.
  rewrite upper_positions_length in H. lia.
Qed.

Lemma popcount_nonneg (x : Z) : 0 <= popcount x.
Proof.
  destruct x as [|p|p]; simpl; try lia.
  induction p; simpl; lia.
Qed.

Lemma popcount_div2 (x : Z) :
  0 <= x -> popcount x = (if Z.testbit x 0 then 1 else 0) + popcount (Z.div2 x).
Proof.
  intros Hx. destruct x as [|p|p]; [reflexivity| |lia].
  destruct p; reflexivity.
Qed.

(** Counting the bits of [t] at the positions [s, s + 1, ..., s + n - 1]
    the way the loop does, when these bits are the [n] bits of [x]. *)
Lemma count_is_popcount (n : nat) :
  forall (x t s c : Z),
    0 <= x < 2 ^ Z.of_nat n ->
    0 <= s -> s + Z.of_nat n <= 64 ->
    (forall k, 0 <= k < Z.of_nat n -> Z.testbit t (s + k) = Z.testbit x k) ->
    fold_left (fun count j => if bit_set t j then count + 1 else count)
              (map (fun k : nat => s + Z.of_nat k) (seq 0 n)) c
    = c + popcount x.
Proof.
  induction n as [|n IH]; intros x t s c Hx Hs Hsn Hbits.
  - simpl in *. assert (x = 0) as -> by lia. simpl. lia.
  - rewrite Nat2Z.inj_succ in *.
    cbn [seq map fold_left].
    rewrite bit_set_testbit by lia.
    replace (s + Z.of_nat 0) with (s + 0) by reflexivity.
    rewrite (Hbits 0) by lia.
    rewrite <- seq_shift, map_map.
    rewrite (map_ext (fun k : nat => s + Z.of_nat (S k))
                     (fun k : nat => (s + 1) + Z.of_nat k))
      by (intros k; lia).
    rewrite (popcount_div2 x) by lia.
    assert (0 <= Z.div2 x < 2 ^ Z.of_nat n) as Hhalf.
    { rewrite Z.div2_div. split; [apply Z.div_pos; lia|].
      apply Z.div_lt_upper_bound; [lia|].
      rewrite <- Z.pow_succ_r by lia. lia. }
    assert (forall k, 0 <= k < Z.of_nat n ->
                      Z.testbit t (s + 1 + k) = Z.testbit (Z.div2 x) k) as Hbits'.
    { intros k Hk. rewrite Z.div2_div, Z.div2_bits by lia.
      replace (s + 1 + k) with (s + Z.succ k) by lia. apply Hbits. lia. }
    destruct (Z.testbit x 0).
    + rewrite (IH (Z.div2 x) t (s + 1) (c + 1)) by (assumption || lia). lia.
    + rewrite (IH (Z.div2 x) t (s + 1) c) by (assumption || lia). lia.
Qed.

(** For a 64-bit bitmask and a position in [0, 64), [count_uper_bits] is
    the population count of the bitmask shifted right by [pos + 1]. *)
Theorem count_uper_bits_popcount (nd : node) (pos : Z) :
  0 <= letters_table nd < 2 ^ 64 ->
  valid_id pos ->
  count_uper_bits nd pos = popcount (Z.shiftr (letters_table nd) (pos + 1)).
Proof.
  unfold valid_id, LLA. intros Ht Hpos.
  unfold count_uper_bits, upper_positions, LLA.
  rewrite (count_is_popcount _ (Z.shiftr (letters_table nd) (pos + 1))).
  - lia.
  - rewrite Z2Nat.id by lia. rewrite Z.shiftr_div_pow2 by lia.
    split; [apply Z.div_pos; lia|].
    apply Z.div_lt_upper_bound; [lia|].
    rewrite <- Z.pow_add_r by lia.
    replace (pos + 1 + (64 - (pos + 1))) with 64 by lia. lia.
  - lia.
  - lia.
  - intros k Hk. rewrite Z.shiftr_spec by lia. f_equal. lia.
Qed.

Lemma count_uper_bits_popcount_witness :
  count_uper_bits (mk_node 36 None 0) 2 = popcount (Z.shiftr (letters_table (mk_node 36 None 0)) (2 + 1)).
Proof.
  apply (count_uper_bits_popcount (mk_node 36 None 0) 2).
  - simpl; lia.
  - unfold valid_id, LLA; lia.
Defined.

(** ** When an iteration leaves the chain *)

Lemma list_at_nil_inv (h : heap) (p : ptr) : list_at h p [] -> p = None.
Proof. inversion 1. reflexivity. Qed.

Lemma list_at_null_inv (h : heap) (l : list nat) : list_at h None l -> l = [].
Proof. inversion 1. reflexivity. Qed.

(** One iteration of the loop of [insert_path], started on a node whose
    chain to NULL has [length L] nodes (the node itself included), with [n]
    the count of recorded identifiers above [pos]: the iteration faults
    exactly when [n] exceeds [length L], and it leaves the cursor at NULL
    (so that the next access faults) exactly when [n] equals [length L]. *)
Theorem visit_faults_iff (h : heap) (a : nat) (nd : node) (L : list nat) (pos : Z) :
  list_at h (Some a) L ->
  h !! a = Some nd ->
  let n := count_uper_bits
             (set_letters_table nd (Z.lor (letters_table nd) (shl64 1 pos))) pos in
  (visit h (Some a) pos = None <-> Z.of_nat (length L) < n) /\
  ((exists h', visit h (Some a) pos = Some (h', None)) <-> n = Z.of_nat (length L)).
Proof.
  intros Hl Ha n.
  assert (exists t, L = a :: t) as [t ->] by (inversion Hl; eauto).
  pose proof (list_at_or _ _ _ _ (Z.lor (letters_table nd) (shl64 1 pos)) Hl Ha) as Hl1.
  rewrite (visit_eq _ _ _ _ Ha). cbv zeta.
  set (nd1 := set_letters_table nd _) in *.
  pose proof (count_uper_bits_nonneg nd1 pos) as Hb. fold n in Hb. fold n.
  destruct (0 <? n) eqn:Hn.
  - apply Z.ltb_lt in Hn.
    destruct (decide (Z.to_nat n <= length (a :: t))%nat) as [Hk|Hk].
    + destruct (list_at_advance _ _ _ _ Hl1 Hk) as (q & -> & Hq).
      split; [split; [discriminate|lia]|].
      split.
      * intros [h' [= _ ->]]. apply list_at_null_inv in Hq.
        apply (f_equal length) in Hq. rewrite length_drop in Hq.
        change (length (@nil nat)) with 0%nat in Hq. lia.
      * intros Heq. rewrite drop_ge in Hq by lia.
        apply list_at_nil_inv in Hq as ->. eauto.
    + destruct (advance _ _ _) as [q|] eqn:Hadv.
      { apply (advance_within _ _ _ _ _ Hl1) in Hadv. contradiction. }
      split; [split; [lia|reflexivity]|].
      split; [intros [h' [=]]|lia].
  - apply Z.ltb_ge in Hn.
    split; [split; [discriminate|simpl; lia]|].
    split; [intros [h' [=]]|simpl; lia].
Qed.

Lemma visit_faults_iff_witness :
  let n := count_uper_bits
             (set_letters_table (mk_node 48 (Some 1%nat) 0)
                (Z.lor (letters_table (mk_node 48 (Some 1%nat) 0)) (shl64 1 3))) 3 in
  (visit [mk_node 48 (Some 1%nat) 0; mk_node 0 None 9] (Some 0%nat) 3 = None
   <-> Z.of_nat (length [0; 1]%nat) < n) /\
  ((exists h', visit [mk_node 48 (Some 1%nat) 0; mk_node 0 None 9] (Some 0%nat) 3
               = Some (h', None))
   <-> n = Z.of_nat (length [0; 1]%nat)).
Proof.
  apply (visit_faults_iff [mk_node 48 (Some 1%nat) 0; mk_node 0 None 9] 0
           (mk_node 48 (Some 1%nat) 0) [0; 1]%nat 3).
  - apply list_at_node with (nd := mk_node 48 (Some 1%nat) 0); [reflexivity|].
    apply list_at_node with (nd := mk_node 0 None 9); [reflexivity|constructor].
  - reflexivity.
Defined.

(** ** An insertion that allocates all the way *)

Lemma spliced_eq (h : heap) (a : nat) (nd1 : node) (p : ptr) :
  (a < length h)%nat ->
  <[length h := set_next zero_node p]>
    (<[a := set_next nd1 (Some (length h))]> (<[a := nd1]> h ++ [zero_node]))
  = <[a := set_next nd1 (Some (length h))]> h ++ [set_next zero_node p].
Proof.
  intros Ha.
  rewrite insert_app_l by solve_length.
  rewrite list_insert_insert_eq.
  rewrite insert_app_r_alt by solve_length.
  rewrite length_insert, Nat.sub_diag. reflexivity.
Qed.

Lemma tail_nodes_length (rest : list Z) :
  forall (k : nat) (p : ptr) (w : Z), length (tail_nodes k rest p w) = S (length rest).
Proof. induction rest as [|y ys IH]; intros k p w; simpl; [|rewrite IH]; reflexivity. Qed.

Lemma tail_nodes_set_weight (rest : list Z) :
  forall (k : nat) (p : ptr) (w0 w : Z),
    tail_nodes k rest p w0 !! length rest = Some (mk_node 0 p (to_uint32 w0)) /\
    <[length rest := mk_node 0 p (to_uint32 w)]> (tail_nodes k rest p w0)
    = tail_nodes k rest p w.
Proof.
  induction rest as [|y ys IH]; intros k p w0 w; simpl; [split; reflexivity|].
  destruct (IH (S k) p w0 w) as [Hlast Hset]. split; [exact Hlast|].
  f_equal. exact Hset.
Qed.

(** The loop started on a zeroed node at the end of the heap: every
    iteration records its identifier and appends a node. *)
Lemma walk_zeroed_exact (rest : list Z) :
  forall (pre : heap) (p : ptr),
    walk (pre ++ [mk_node 0 p 0]) (Some (length pre)) rest
    = Some (pre ++ tail_nodes (length pre) rest p 0,
            Some (length pre + length rest)%nat).
Proof.
  induction rest as [|y ys IH]; intros pre p.
  - simpl. rewrite Nat.add_0_r. reflexivity.
  - assert ((pre ++ [mk_node 0 p 0]) !! length pre = Some (mk_node 0 p 0)) as Hy
      by (apply list_lookup_middle; reflexivity).
    rewrite walk_cons, (visit_eq _ _ _ _ Hy). cbv zeta.
    rewrite count_uper_bits_single by apply Z.lor_0_l.
    change (0 <? 0) with false. cbv iota.
    rewrite spliced_eq by solve_length.
    rewrite insert_app_r_alt by lia. rewrite Nat.sub_diag.
    cbn [letters_table next weight set_letters_table set_next zero_node
         insert list_insert].
    rewrite Z.lor_0_l.
    replace (length (pre ++ [mk_node 0 p 0])) with (S (length pre)) by solve_length.
    replace (Some (S (length pre))) with
      (Some (length (pre ++ [mk_node (shl64 1 y) (Some (S (length pre))) 0])))
      at 2 by (f_equal; solve_length).
    change (set_next (set_letters_table (mk_node 0 p 0) (shl64 1 y)) (Some (S (length pre))))
      with (mk_node (shl64 1 y) (Some (S (length pre))) 0).
    change (set_next zero_node p) with (mk_node 0 p 0).
    rewrite IH. rewrite length_app. cbn [length tail_nodes].
    rewrite <- app_assoc. cbn [app].
    replace (length pre + 1)%nat with (S (length pre)) by lia.
    replace (S (length pre) + length ys)%nat with (length pre + S (length ys))%nat by lia.
    reflexivity.
Qed.

(** The result of an insertion that allocates in its first iteration. *)
Lemma insert_allocating
    (h : heap) (a : nat) (nd : node) (x : Z) (rest : list Z) (w : Z) :
  h !! a = Some nd ->
  count_uper_bits (set_letters_table nd (Z.lor (letters_table nd) (shl64 1 x))) x = 0 ->
  insert_path h (Some a) (x :: rest) w
  = Some (<[a := mk_node (Z.lor (letters_table nd) (shl64 1 x)) (Some (length h)) (weight nd)]> h
          ++ tail_nodes (length h) rest (next nd) w).
Proof.
  intros Ha Hcount.
  pose proof (lookup_lt_Some _ _ _ Ha) as Hlt.
  unfold insert_path. rewrite walk_cons, (visit_eq _ _ _ _ Ha). cbv zeta.
  rewrite Hcount. change (0 <? 0) with false. cbv iota.
  rewrite spliced_eq by exact Hlt.
  set (pre := <[a := _]> h).
  assert (length pre = length h) as Hlen by apply length_insert.
  change (set_next zero_node (next nd)) with (mk_node 0 (next nd) 0).
  rewrite <- Hlen, walk_zeroed_exact.
  destruct (tail_nodes_set_weight rest (length pre) (next nd) 0 w) as [Hlast Hset].
  unfold finish.
  rewrite lookup_app_r by lia.
  replace (length pre + length rest - length pre)%nat with (length rest) by lia.
  rewrite Hlast. cbv zeta.
  rewrite insert_app_r_alt by lia.
  replace (length pre + length rest - length pre)%nat with (length rest) by lia.
  change (set_weight _ (to_uint32 w)) with (mk_node 0 (next nd) (to_uint32 w)).
  rewrite Hset. reflexivity.
Qed.

(** If no identifier above [x] is recorded on the node the insertion of
    [x :: rest] starts on, the insertion returns and its result is known in
    full: the start node gets bit [x] and is linked to the first of
    [1 + length rest] new nodes; these are appended to the heap in the
    order of their links, each holds exactly one of the remaining
    identifiers, and the last one, with an empty bitmask and the weight, is
    linked to what used to follow the start node.  Nothing else changes. *)
Theorem insert_above_all_recorded
    (h : heap) (a : nat) (nd : node) (x : Z) (rest : list Z) (w : Z) :
  h !! a = Some nd ->
  Forall valid_id (x :: rest) ->
  count_uper_bits (set_letters_table nd (Z.lor (letters_table nd) (shl64 1 x))) x = 0 ->
  insert_path h (Some a) (x :: rest) w
  = Some (<[a := mk_node (Z.lor (letters_table nd) (shl64 1 x)) (Some (length h)) (weight nd)]> h
          ++ tail_nodes (length h) rest (next nd) w).
Proof.
  intros Ha _ Hcount. apply insert_allocating; [exact Ha|exact Hcount].
Qed.

Lemma insert_above_all_recorded_witness :
  insert_path [mk_node 1 (Some 1%nat) 0; mk_node 2 (Some 2%nat) 0; mk_node 0 None 10]
              (Some 0%nat) [1; 2] 15
  = Some (<[0%nat := mk_node (Z.lor (letters_table (mk_node 1 (Some 1%nat) 0)) (shl64 1 1))
                             (Some (length [mk_node 1 (Some 1%nat) 0;
                                            mk_node 2 (Some 2%nat) 0;
                                            mk_node 0 None 10]))
                             (weight (mk_node 1 (Some 1%nat) 0))]>
            [mk_node 1 (Some 1%nat) 0; mk_node 2 (Some 2%nat) 0; mk_node 0 None 10]
          ++ tail_nodes (length [mk_node 1 (Some 1%nat) 0; mk_node 2 (Some 2%nat) 0;
                                 mk_node 0 None 10])
                        [2] (next (mk_node 1 (Some 1%nat) 0)) 15).
Proof.
  apply (insert_above_all_recorded
           [mk_node 1 (Some 1%nat) 0; mk_node 2 (Some 2%nat) 0; mk_node 0 None 10]
           0 (mk_node 1 (Some 1%nat) 0) 1 [2] 15).
  - reflexivity.
  - repeat constructor; unfold valid_id, LLA; lia.
  - vm_compute; reflexivity.
Defined.

Lemma tail_nodes_tables (rest : list Z) :
  forall (k : nat) (p : ptr) (w : Z),
    map letters_table (tail_nodes k rest p w) = map (shl64 1) rest ++ [0] /\
    map next (tail_nodes k rest p w) = map Some (seq (S k) (length rest)) ++ [p] /\
    map weight (tail_nodes k rest p w) = replicate (length rest) 0 ++ [to_uint32 w].
Proof.
  induction rest as [|y ys IH]; intros k p w; simpl; [auto|].
  destruct (IH (S k) p w) as (-> & -> & ->). auto.
Qed.

(** The first insertion into a fresh trie can be read back from the heap:
    it returns, and the heap then holds [length path + 1] nodes in chain
    order (node [i] is linked to node [i + 1], the last one to NULL); node
    [i] holds exactly the [i]-th identifier of the path, every weight is 0
    except that of the last node, which has an empty bitmask and carries
    the weight. *)
Theorem first_insertion_reads_back (path : list Z) (w : Z) :
  Forall valid_id path ->
  exists h,
    insert_path fresh root path w = Some h /\
    map letters_table h = map (Z.pow 2) path ++ [0] /\
    map next h = map Some (seq 1 (length path)) ++ [None] /\
    map weight h = replicate (length path) 0 ++ [to_uint32 w].
Proof.
  intros Hvalid.
  assert (map (shl64 1) path = map (Z.pow 2) path) as Hpow.
  { apply map_ext_in. intros x Hx.
    rewrite Forall_forall in Hvalid. apply shl64_valid.
    apply Hvalid, list_elem_of_In, Hx. }
  destruct path as [|x rest].
  - eexists. split; [reflexivity|]. repeat split.
  - eexists. split.
    + apply (insert_allocating fresh 0 zero_node x rest w); [reflexivity|].
      apply count_uper_bits_single. apply Z.lor_0_l.
    + destruct (tail_nodes_tables rest 1 None w) as (Ht & Hn & Hw).
      cbn [fresh insert list_insert app map letters_table next weight zero_node length seq].
      rewrite Ht, Hn, Hw, Z.lor_0_l.
      simpl in Hpow. injection Hpow as -> ->. auto.
Qed.

Lemma first_insertion_reads_back_witness :
  exists h,
    insert_path fresh root [0; 1] 10 = Some h /\
    map letters_table h = map (Z.pow 2) [0; 1] ++ [0] /\
    map next h = map Some (seq 1 (length [0; 1])) ++ [None] /\
    map weight h = replicate (length [0; 1]) 0 ++ [to_uint32 10].
Proof.
  apply (first_insertion_reads_back [0; 1] 10).
  repeat constructor; unfold valid_id, LLA; lia.
Defined.

(** ** How the heap grows *)

Lemma visit_grows (h h' : heap) (i i' : ptr) (pos : Z) :
  visit h i pos = Some (h', i') -> (length h <= length h' <= S (length h))%nat.
Proof.
  intros Hv. destruct i as [a|]; [|discriminate].
  destruct (h !! a) as [nd|] eqn:Ha; [|unfold visit in Hv; rewrite Ha in Hv; discriminate].
  rewrite (visit_eq _ _ _ _ Ha) in Hv. cbv zeta in Hv.
  destruct (0 <? _).
  - destruct (advance _ _ _); [|discriminate]. injection Hv as <- <-.
    rewrite length_insert. lia.
  - injection Hv as <- <-. rewrite !length_insert, length_app, length_insert.
    simpl. lia.
Qed.

Lemma walk_grows (path : list Z) :
  forall (h h' : heap) (i i' : ptr),
    walk h i path = Some (h', i') ->
    (length h <= length h' <= length h + length path)%nat.
Proof.
  induction path as [|pos rest IH]; intros h h' i i' Hw.
  - simpl in Hw. injection Hw as <- <-. simpl. lia.
  - rewrite walk_cons in Hw.
    destruct (visit h i pos) as [[h1 i1]|] eqn:Hv; [|discriminate].
    apply visit_grows in Hv. apply IH in Hw. simpl. lia.
Qed.

(** An insertion never releases a node and allocates at most one node per
    identifier of the path: the heap it returns has at least as many nodes
    as before and at most [length path] more. *)
Theorem insert_path_allocates_at_most (h h' : heap) (r : ptr) (path : list Z) (w : Z) :
  insert_path h r path w = Some h' ->
  (length h <= length h' <= length h + length path)%nat.
Proof.
  intros Hins.
  destruct (insert_path_Some _ _ _ _ _ Hins) as (hw & i & Hw & Hf).
  destruct (finish_Some _ _ _ _ Hf) as (f & ndf & -> & _ & ->).
  rewrite length_insert. exact (walk_grows _ _ _ _ _ Hw).
Qed.

Lemma insert_path_allocates_at_most_witness :
  (length [mk_node 32 (Some 1%nat) 0; mk_node 0 None 7]
   <= length [mk_node 36 (Some 1%nat) 0; mk_node 0 None 9]
   <= length [mk_node 32 (Some 1%nat) 0; mk_node 0 None 7] + length [2])%nat.
Proof.
  apply (insert_path_allocates_at_most
           [mk_node 32 (Some 1%nat) 0; mk_node 0 None 7] _ root [2] 9).
  vm_compute; reflexivity.
Defined.

(** ** Every node stays on the chain *)

(** One iteration, seen from the root: the chain afterwards consists of
    the chain before and the nodes allocated meanwhile. *)
Lemma visit_root_chain_grow (h h' : heap) (r i' : ptr) (a : nat) (L : list nat) (pos : Z) :
  list_at h r L -> a ∈ L ->
  visit h (Some a) pos = Some (h', i') ->
  exists L',
    list_at h' r L' /\ (forall f, i' = Some f -> f ∈ L') /\
    L' ≡ₚ seq (length h) (length h' - length h) ++ L.
Proof.
  intros Hl Hin Hv.
  destruct (visit_root_chain _ _ _ _ _ _ _ Hl Hin Hv) as (L' & Hl' & Hi').
  exists L'. split; [exact Hl'|]. split; [exact Hi'|].
  apply list_elem_of_split in Hin as (L1 & L2 & ->).
  pose proof (list_at_suffix _ _ _ _ _ Hl) as Hsuf.
  inversion Hsuf as [|a' nd t Ha Ht]; subst.
  pose proof (lookup_lt_Some _ _ _ Ha) as Hlt.
  rewrite (visit_eq _ _ _ _ Ha) in Hv. cbv zeta in Hv.
  set (nd1 := set_letters_table nd _) in *.
  destruct (0 <? count_uper_bits nd1 pos).
  - destruct (advance _ _ _) as [q|] eqn:Hadv; [|discriminate].
    injection Hv as <- <-.
    rewrite length_insert, Nat.sub_diag. simpl.
    assert (list_at (<[a := nd1]> h) r (L1 ++ a :: L2)) as Hsame.
    { apply list_at_links with (h := h); [exact Hl|].
      intros b x _ Hb. destruct (decide (a = b)) as [<-|Hne].
      - rewrite list_lookup_insert_eq by exact Hlt. eexists. split; [reflexivity|].
        rewrite Ha in Hb. injection Hb as <-. reflexivity.
      - exists x. rewrite list_lookup_insert_ne by done. auto. }
    rewrite (list_at_inj _ _ _ _ Hl' Hsame). reflexivity.
  - injection Hv as <- <-.
    pose proof (list_at_splice h a nd nd1 L2 L1 r Hl Ha) as Hspl.
    rewrite (list_at_inj _ _ _ _ Hl' Hspl).
    rewrite !length_insert, length_app, length_insert. simpl.
    replace (length h + 1 - length h)%nat with 1%nat by lia. simpl.
    replace (L1 ++ a :: length h :: L2) with ((L1 ++ [a]) ++ length h :: L2)
      by (rewrite <- app_assoc; reflexivity).
    rewrite <- Permutation_middle, <- app_assoc. reflexivity.
Qed.

Lemma walk_root_chain_grow (path : list Z) :
  forall (h h' : heap) (r i i' : ptr) (L : list nat),
    list_at h r L -> (forall a, i = Some a -> a ∈ L) ->
    walk h i path = Some (h', i') ->
    exists L',
      list_at h' r L' /\ (forall f, i' = Some f -> f ∈ L') /\
      L' ≡ₚ seq (length h) (length h' - length h) ++ L.
Proof.
  induction path as [|pos rest IH]; intros h h' r i i' L Hl Hi Hw.
  - simpl in Hw. injection Hw as <- <-. exists L.
    rewrite Nat.sub_diag. simpl. auto.
  - rewrite walk_cons in Hw.
    destruct (visit h i pos) as [[h1 i1]|] eqn:Hv; [|discriminate].
    destruct i as [a|]; [|discriminate].
    pose proof (visit_grows _ _ _ _ _ Hv) as Hg1.
    destruct (visit_root_chain_grow _ _ _ _ _ _ _ Hl (Hi a eq_refl) Hv)
      as (L1 & Hl1 & Hi1 & Hp1).
    destruct (IH _ _ _ _ _ _ Hl1 Hi1 Hw) as (L' & Hl' & Hi' & Hp').
    pose proof (walk_grows _ _ _ _ _ Hw) as Hg2.
    exists L'. split; [exact Hl'|]. split; [exact Hi'|].
    rewrite Hp', Hp1.
    replace (length h' - length h)%nat
      with ((length h1 - length h) + (length h' - length h1))%nat by lia.
    rewrite seq_app.
    replace (length h + (length h1 - length h))%nat with (length h1) by lia.
    rewrite (Permutation_app_comm (seq (length h) _) (seq (length h1) _)).
    rewrite <- app_assoc. reflexivity.
Qed.

Lemma insert_path_chain_grow (h h' : heap) (r : ptr) (L : list nat) (path : list Z) (w : Z) :
  list_at h r L -> insert_path h r path w = Some h' ->
  exists hw f L',
    walk h r path = Some (hw, Some f) /\ f ∈ L' /\
    list_at h' r L' /\ L' ≡ₚ seq (length h) (length h' - length h) ++ L.
Proof.
  intros Hl Hins.
  destruct (insert_path_Some _ _ _ _ _ Hins) as (hw & i & Hw & Hf).
  assert (forall a, r = Some a -> a ∈ L) as Hr.
  { intros a ->. inversion Hl; subst. apply elem_of_cons; auto. }
  destruct (walk_root_chain_grow _ _ _ _ _ _ _ Hl Hr Hw) as (L' & Hl' & Hi' & Hp').
  destruct (finish_Some _ _ _ _ Hf) as (f & ndf & -> & Hndf & ->).
  exists hw, f, L'. split; [exact Hw|]. split; [apply Hi'; reflexivity|].
  rewrite length_insert. split; [|exact Hp'].
  apply list_at_links with (h := hw); [exact Hl'|].
  intros b x _ Hb. destruct (decide (f = b)) as [<-|Hne].
  - rewrite list_lookup_insert_eq by (eapply lookup_lt_Some; eauto).
    eexists. split; [reflexivity|]. rewrite Hndf in Hb. injection Hb as <-. reflexivity.
  - exists x. rewrite list_lookup_insert_ne by done. auto.
Qed.

(** An insertion touches only the trie it is given.  On a heap that holds
    other nodes besides the chain of [r] (another trie, say), an insertion
    at [r] that returns leaves every node that is not on the chain of [r]
    exactly as it was: bitmask, link and weight. *)
Theorem insert_path_leaves_other_nodes
    (h h' : heap) (r : ptr) (L : list nat) (path : list Z) (w : Z) (b : nat) (nd : node) :
  list_at h r L ->
  insert_path h r path w = Some h' ->
  b ∉ L -> h !! b = Some nd ->
  h' !! b = Some nd.
Proof.
  intros Hl Hins Hb Hnd.
  pose proof (lookup_lt_Some _ _ _ Hnd) as Hblt.
  destruct (insert_path_chain_grow _ _ _ _ _ _ Hl Hins) as (hw & f & L' & Hw & Hf & _ & Hp).
  destruct (walk_frame _ _ _ _ _ _ Hl Hw) as [Hfr _].
  destruct (insert_path_Some _ _ _ _ _ Hins) as (hw' & i & Hw' & Hfin).
  rewrite Hw in Hw'. injection Hw' as <- <-.
  destruct (finish_Some _ _ _ _ Hfin) as (f' & ndf & [= <-] & _ & ->).
  rewrite Hp in Hf. apply elem_of_app in Hf as [Hnew|Hold].
  - apply elem_of_seq in Hnew.
    rewrite list_lookup_insert_ne by lia. rewrite Hfr by assumption. exact Hnd.
  - rewrite list_lookup_insert_ne by (intros ->; contradiction).
    rewrite Hfr by assumption. exact Hnd.
Qed.

Lemma insert_path_leaves_other_nodes_witness :
  [mk_node 1 (Some 3%nat) 0; mk_node 5 (Some 2%nat) 4; mk_node 0 None 8;
   mk_node 0 None 9] !! 1%nat = Some (mk_node 5 (Some 2%nat) 4).
Proof.
  apply (insert_path_leaves_other_nodes
           [mk_node 0 None 0; mk_node 5 (Some 2%nat) 4; mk_node 0 None 8] _
           (Some 0%nat) [0%nat] [0] 9 1 (mk_node 5 (Some 2%nat) 4)).
  - apply list_at_node with (nd := mk_node 0 None 0); [reflexivity|constructor].
  - vm_compute; reflexivity.
  - intros Hin. apply elem_of_cons in Hin as [Heq|Hin]; [discriminate|].
    apply elem_of_nil in Hin. exact Hin.
  - reflexivity.
Defined.

Lemma insert_all_covers (calls : list (list Z * Z)) :
  forall (h h' : heap) (r : ptr) (L : list nat),
    list_at h r L -> L ≡ₚ seq 0 (length h) ->
    insert_all h r calls = Some h' ->
    exists L', list_at h' r L' /\ L' ≡ₚ seq 0 (length h').
Proof.
  induction calls as [|[path w] calls IH]; intros h h' r L Hl Hp Hall; simpl in Hall.
  - injection Hall as <-. eauto.
  - destruct (insert_path h r path w) as [h1|] eqn:Hins; [|discriminate].
    destruct (insert_path_chain_grow _ _ _ _ _ _ Hl Hins) as (_ & _ & L1 & _ & _ & Hl1 & Hp1).
    assert (length h <= length h1)%nat as Hg.
    { destruct (insert_path_Some _ _ _ _ _ Hins) as (hw & i & Hw & Hf).
      destruct (finish_Some _ _ _ _ Hf) as (f & ndf & -> & _ & ->).
      rewrite length_insert. apply (walk_grows _ _ _ _ _ Hw). }
    apply (IH _ _ _ L1 Hl1); [|exact Hall].
    rewrite Hp1, Hp, Permutation_app_comm, <- seq_app.
    replace (length h + (length h1 - length h))%nat with (length h1) by lia.
    reflexivity.
Qed.

(** No node is ever lost: in a trie built from a freshly allocated root by
    insertions that return, the chain from the root passes through every
    node that has been allocated, once. *)
Theorem built_tries_hold_every_node (calls : list (list Z * Z)) (h : heap) :
  insert_all fresh root calls = Some h ->
  exists L, list_at h root L /\ L ≡ₚ seq 0 (length h).
Proof.
  intros Hall.
  apply (insert_all_covers calls fresh h root [0%nat] fresh_is_chain); [reflexivity|exact Hall].
Qed.

Lemma built_tries_hold_every_node_witness :
  exists L,
    list_at [mk_node 1 (Some 1%nat) 0; mk_node 2 (Some 2%nat) 0; mk_node 0 None 10] root L /\
    L ≡ₚ seq 0 (length [mk_node 1 (Some 1%nat) 0; mk_node 2 (Some 2%nat) 0;
                        mk_node 0 None 10]).
Proof.
  apply (built_tries_hold_every_node [([0; 1], 10)]).
  vm_compute; reflexivity.
Defined.

(** ** free_path *)

(** If the loop returns, what it has freed on top of [freed] is the chain
    from [current]. *)
Lemma free_loop_sound (fuel : nat) :
  forall (h : heap) (freed F : list nat) (current : ptr),
    free_loop fuel h freed current = Returns F ->
    exists L, F = freed ++ L /\ list_at h current L.
Proof.
  induction fuel as [|fuel IH]; intros h freed F current Hrun; [discriminate|].
  simpl in Hrun. destruct current as [temp|].
  - destruct (h !! temp) as [nd|] eqn:Hnd; [|discriminate].
    destruct (IH _ _ _ _ Hrun) as (L & -> & Hl).
    exists (temp :: L). rewrite <- app_assoc. split; [reflexivity|].
    econstructor; eauto.
  - injection Hrun as <-. exists []. rewrite app_nil_r. split; [reflexivity|constructor].
Qed.

(** On a chain that reaches NULL, the loop frees the chain, provided the
    bound covers its length. *)
Lemma free_loop_complete (h : heap) (current : ptr) (L : list nat) :
  list_at h current L ->
  forall (fuel : nat) (freed : list nat),
    (length L < fuel)%nat ->
    free_loop fuel h freed current = Returns (freed ++ L).
Proof.
  induction 1 as [|a nd l Ha Hl IH]; intros fuel freed Hfuel.
  - destruct fuel; [simpl in Hfuel; lia|]. simpl. rewrite app_nil_r. reflexivity.
  - destruct fuel as [|fuel]; [lia|]. simpl in *.
    rewrite Ha, (IH fuel (freed ++ [a])) by lia.
    rewrite <- app_assoc. reflexivity.
Qed.

(** Distinct allocated addresses are no more than there are nodes. *)
Lemma allocated_NoDup_length (h : heap) (l : list nat) :
  NoDup l -> (forall a, a ∈ l -> (a < length h)%nat) -> (length l <= length h)%nat.
Proof.
  intros Hnd Hall.
  assert (length l <= length (seq 0 (length h)))%nat as Hle.
  { apply submseteq_length, NoDup_submseteq; [exact Hnd|].
    intros a Ha. apply elem_of_seq. specialize (Hall a Ha). lia. }
  rewrite length_seq in Hle. exact Hle.
Qed.

Lemma free_path_on_chain (h : heap) (r : ptr) (F : list nat) :
  list_at h r F -> free_path h r = Returns F.
Proof.
  intros Hl. apply (free_loop_complete _ _ _ Hl (S (length h)) []).
  pose proof (allocated_NoDup_length h F (list_at_NoDup _ _ _ Hl)
                (fun a Ha => list_at_allocated _ _ _ a Hl Ha)). lia.
Qed.

(** [free_path] returns exactly on the chains that reach NULL, and then it
    has passed the nodes of the chain to [free] in chain order, each once,
    each after its link was read.  On a chain that does not reach NULL (it
    runs in a circle, or into an address that was never allocated) the
    loop does not return, however many rounds it is given. *)
Theorem free_path_returns_iff (h : heap) (r : ptr) :
  (forall F, free_path h r = Returns F <-> list_at h r F) /\
  (forall F, free_path h r = Returns F -> NoDup F) /\
  ((forall L, ~ list_at h r L) ->
   forall (fuel : nat) (freed F : list nat), free_loop fuel h freed r <> Returns F).
Proof.
  assert (forall F, free_path h r = Returns F -> list_at h r F) as Hchain.
  { unfold free_path. intros F Hrun.
    destruct (free_loop_sound _ _ _ _ _ Hrun) as (L & -> & Hl). exact Hl. }
  split; [|split].
  - intros F. split; [apply Hchain|apply free_path_on_chain].
  - intros F Hrun. eapply list_at_NoDup, Hchain, Hrun.
  - intros Hnone fuel freed F Hrun.
    destruct (free_loop_sound _ _ _ _ _ Hrun) as (L & _ & Hl).
    exact (Hnone L Hl).
Qed.

(** Tear-down after any use: for a trie built from a freshly allocated
    root by insertions that return, [free_path] returns and has freed every
    node ever allocated, the root included, exactly once. *)
Theorem free_path_releases_every_node (calls : list (list Z * Z)) (h : heap) :
  insert_all fresh root calls = Some h ->
  exists F, free_path h root = Returns F /\ F ≡ₚ seq 0 (length h) /\ NoDup F.
Proof.
  intros Hall.
  destruct (insert_all_covers calls fresh h root [0%nat] fresh_is_chain
              ltac:(reflexivity) Hall) as (L & Hl & Hp).
  exists L. split; [apply free_path_on_chain, Hl|].
  split; [exact Hp|]. eapply list_at_NoDup, Hl.
Qed.

Lemma free_path_releases_every_node_witness :
  exists F,
    free_path [mk_node 1 (Some 3%nat) 0; mk_node 2 (Some 2%nat) 0; mk_node 0 None 10;
               mk_node 2 (Some 4%nat) 0; mk_node 4 (Some 5%nat) 0;
               mk_node 0 (Some 1%nat) 25] root = Returns F /\
    F ≡ₚ seq 0 (length [mk_node 1 (Some 3%nat) 0; mk_node 2 (Some 2%nat) 0;
                        mk_node 0 None 10; mk_node 2 (Some 4%nat) 0;
                        mk_node 4 (Some 5%nat) 0; mk_node 0 (Some 1%nat) 25]) /\
    NoDup F.
Proof.
  apply (free_path_releases_every_node test2).
  vm_compute; reflexivity.
Defined.

Lemma two_node_cycle_reaches_no_end (l : list nat) :
  ~ list_at [mk_node 32 (Some 1%nat) 0; mk_node 256 (Some 0%nat) 0] root l.
Proof.
  intros Hl.
  inversion Hl as [|a0 n0 l0 Hn0 Hl0]; subst.
  injection Hn0 as <-. simpl in Hl0.
  inversion Hl0 as [|a1 n1 l1 Hn1 Hl1]; subst.
  injection Hn1 as <-. simpl in Hl1.
  pose proof (list_at_inj _ _ _ _ Hl Hl1) as Heq.
  apply (f_equal length) in Heq. simpl in Heq. lia.
Qed.

Lemma free_path_returns_iff_witness :
  (forall F, free_path [mk_node 32 (Some 1%nat) 0; mk_node 256 (Some 0%nat) 0] root = Returns F
             <-> list_at [mk_node 32 (Some 1%nat) 0; mk_node 256 (Some 0%nat) 0] root F) /\
  (forall (fuel : nat) (freed F : list nat),
      free_loop fuel [mk_node 32 (Some 1%nat) 0; mk_node 256 (Some 0%nat) 0] freed root
      <> Returns F).
Proof.
  destruct (free_path_returns_iff
              [mk_node 32 (Some 1%nat) 0; mk_node 256 (Some 0%nat) 0] root)
    as (Hiff & _ & Hnever).
  split; [exact Hiff|].
  exact (Hnever two_node_cycle_reaches_no_end).
Defined.

(** ** The test program *)

Lemma insert_path_with_end_mark (h : heap) (r : ptr) (path : list Z) (w : Z) :
  insert_path_with (shl64 1 LLA) h r path w = insert_path h r path w.
Proof. reflexivity. Qed.

Lemma with_node_eq (h : heap) (p : ptr) (n : nat) (rest : node -> outcome) (nd : node) :
  nth_next h p n = Some nd -> with_node h p n rest = rest nd.
Proof. unfold with_node. intros ->. reflexivity. Qed.

Lemma assert_at_holds (line : Z) (cond : bool) (rest : outcome) :
  cond = true -> assert_at line cond rest = rest.
Proof. intros ->. reflexivity. Qed.

(** The first call of [main], for any value of the end mark. *)
Lemma test1_heap (end_mark : Z) :
  insert_path_with end_mark fresh (Some 0%nat) [0; 1] 10
  = Some [mk_node 1 (Some 1%nat) 0; mk_node 2 (Some 2%nat) 0;
          mk_node (Z.lor 0 end_mark) None 10].
Proof.
  unfold insert_path_with.
  assert (walk fresh (Some 0%nat) [0; 1]
          = Some ([mk_node 1 (Some 1%nat) 0; mk_node 2 (Some 2%nat) 0; mk_node 0 None 0],
                  Some 2%nat)) as -> by (vm_compute; reflexivity).
  reflexivity.
Qed.

(** The test program does not pass, whatever the undefined shift
    [1ULL << LLA] evaluates to: the first insertion leaves [root->next]
    with the bitmask 2 and the weight 0, so [main] stops at the assertion
    of line 118 (the end mark on [root->next]) unless the mark happens to
    contain bit 1, and then at the assertion of line 119 (the weight of
    [root->next]).  With the mark taken modulo 2^64 it stops at line 118.
    It never reaches the second test, [free_path] or ["All tests passed"]. *)
Theorem main_never_passes :
  (forall end_mark : Z,
      main_with end_mark = Aborted 118 \/ main_with end_mark = Aborted 119) /\
  main = Aborted 118.
Proof.
  assert (forall m, main_with m
                    = if Z.land 2 m =? 0 then Aborted 118 else Aborted 119) as Hmain.
  { intros m. unfold main_with.
    change (calloc []) with (fresh, 0%nat). cbv beta iota.
    rewrite test1_heap. unfold with_heap.
    rewrite (with_node_eq _ _ 0 _ (mk_node 1 (Some 1%nat) 0)) by reflexivity.
    rewrite assert_at_holds by reflexivity.
    rewrite assert_at_holds by reflexivity.
    rewrite (with_node_eq _ _ 1 _ (mk_node 2 (Some 2%nat) 0)) by reflexivity.
    rewrite assert_at_holds by reflexivity.
    cbn [letters_table weight].
    destruct (Z.land 2 m =? 0); reflexivity. }
  split.
  - intros m. rewrite Hmain. destruct (Z.land 2 m =? 0); auto.
  - unfold main. rewrite Hmain. reflexivity.
Qed.

(** ** A safe order of insertion *)

Lemma count_uper_bits_none_above (nd : node) (x : Z) :
  0 <= x ->
  (forall j, x < j < 64 -> Z.testbit (letters_table nd) j = false) ->
  count_uper_bits nd x = 0.
Proof.
  intros Hx Hnone. unfold count_uper_bits. apply count_none.
  intros j Hj. apply upper_positions_spec in Hj. unfold LLA in Hj.
  rewrite bit_set_testbit by lia. apply Hnone. lia.
Qed.

Lemma insert_all_ascending (calls : list (list Z * Z)) :
  forall (h : heap) (nd : node) (m : Z),
    h !! 0%nat = Some nd ->
    0 <= m ->
    (forall j, m < j < 64 -> Z.testbit (letters_table nd) j = false) ->
    ascending m calls ->
    exists h',
      insert_all h root calls = Some h' /\
      length h' = (length h + total_length calls)%nat.
Proof.
  induction calls as [|[path w] calls IH]; intros h nd m Hroot Hm Hnone Hasc.
  - exists h. simpl. split; [reflexivity|lia].
  - simpl in Hasc. destruct path as [|x rest]; [contradiction|].
    destruct Hasc as (Hmx & Hvalid & Hasc).
    pose proof (lookup_lt_Some _ _ _ Hroot) as Hlt.
    assert (valid_id x) as Hx by (inversion Hvalid; assumption).
    unfold valid_id, LLA in Hx.
    assert (forall j, x < j < 64 ->
              Z.testbit (Z.lor (letters_table nd) (shl64 1 x)) j = false) as Hnone'.
    { intros j Hj. rewrite Z.lor_spec, shl64_valid, Z.pow2_bits_false by lia.
      rewrite Hnone by lia. reflexivity. }
    cbn [insert_all]. unfold root at 1.
    rewrite (insert_allocating h 0 nd x rest w Hroot)
      by (apply count_uper_bits_none_above; [lia|exact Hnone']).
    set (h1 := _ ++ tail_nodes _ _ _ _).
    destruct (IH h1 (mk_node (Z.lor (letters_table nd) (shl64 1 x)) (Some (length h))
                             (weight nd)) x) as (h' & Hall & Hlen).
    + unfold h1. rewrite lookup_app_l by solve_length.
      apply list_lookup_insert_eq. exact Hlt.
    + lia.
    + exact Hnone'.
    + exact Hasc.
    + exists h'. split; [exact Hall|]. rewrite Hlen. unfold h1.
      rewrite length_app, length_insert, tail_nodes_length. simpl. lia.
Qed.

(** Insertions into a fresh trie in non-decreasing order of their first
    identifier (valid, non-empty paths) never fault.  They never share a
    node either: the heap ends with one node per identifier inserted, plus
    the root. *)
Theorem ascending_insertions_return (calls : list (list Z * Z)) :
  ascending 0 calls ->
  exists h,
    insert_all fresh root calls = Some h /\
    length h = S (total_length calls).
Proof.
  intros Hasc.
  destruct (insert_all_ascending calls fresh zero_node 0) as (h & Hall & Hlen);
    [reflexivity|lia|intros j _; apply Z.bits_0|exact Hasc|].
  exists h. split; [exact Hall|exact Hlen].
Qed.

Lemma ascending_insertions_return_witness :
  exists h,
    insert_all fresh root test3 = Some h /\
    length h = S (total_length test3).
Proof.
  apply (ascending_insertions_return test3).
  simpl. repeat split; try lia; repeat constructor; unfold valid_id, LLA; lia.
Defined.

(** ** An order of insertion that faults *)

Lemma count_shift (t : Z) (L : list Z) (c d : Z) :
  fold_left (fun count j => if bit_set t j then count + 1 else count) L (c + d)
  = fold_left (fun count j => if bit_set t j then count + 1 else count) L c + d.
Proof.
  revert c. induction L as [|j L IH]; intros c; simpl; [reflexivity|].
  destruct (bit_set t j); [|apply IH].
  replace (c + d + 1) with (c + 1 + d) by lia. apply IH.
Qed.

Lemma map_seq_from (n : nat) :
  forall (x : Z) (s : nat),
    map (fun k : nat => x + Z.of_nat k) (seq s n)
    = map (fun k : nat => x + Z.of_nat s + Z.of_nat k) (seq 0 n).
Proof.
  induction n as [|n IH]; intros x s; simpl; [reflexivity|].
  f_equal; [lia|].
  rewrite (IH x (S s)), (IH (x + Z.of_nat s) 1%nat).
  apply map_ext. intros k. lia.
Qed.

(** Counting above [a] passes the first recorded identifier [b] above [a]
    and goes on as counting above [b]. *)
Lemma count_uper_bits_next (nd : node) (a b : Z) :
  0 <= a < b -> b < 64 ->
  Z.testbit (letters_table nd) b = true ->
  (forall j, a < j < b -> Z.testbit (letters_table nd) j = false) ->
  count_uper_bits nd a = 1 + count_uper_bits nd b.
Proof.
  intros Hab Hb Hset Hgap.
  unfold count_uper_bits, upper_positions, LLA.
  replace (Z.to_nat (64 - (a + 1)))
    with (Z.to_nat (b - a - 1) + S (Z.to_nat (64 - (b + 1))))%nat by lia.
  rewrite seq_app, map_app, fold_left_app.
  rewrite (count_none _ (map _ (seq 0 (Z.to_nat (b - a - 1))))).
  2:{ intros j Hj. apply list_elem_of_In, in_map_iff in Hj as (k & <- & Hk).
      apply in_seq in Hk. rewrite bit_set_testbit by lia. apply Hgap. lia. }
  cbn [seq map fold_left].
  replace (a + 1 + Z.of_nat (0 + Z.to_nat (b - a - 1))) with b by lia.
  rewrite bit_set_testbit, Hset by lia.
  rewrite (map_seq_from _ (a + 1)).
  rewrite (map_ext (fun k : nat =>
                      a + 1 + Z.of_nat (S (0 + Z.to_nat (b - a - 1))) + Z.of_nat k)
                   (fun k : nat => b + 1 + Z.of_nat k)) by (intros k; lia).
  rewrite (count_shift _ _ 0 1). lia.
Qed.

(** The insertion of a one-element path when the count is positive: the
    cursor steps along the chain and the two final stores follow. *)
Lemma insert_one_steps (h : heap) (a : nat) (nd : node) (x w : Z) :
  h !! a = Some nd ->
  let nd1 := set_letters_table nd (Z.lor (letters_table nd) (shl64 1 x)) in
  0 < count_uper_bits nd1 x ->
  insert_path h (Some a) [x] w =
    match advance (<[a := nd1]> h) (Some a) (Z.to_nat (count_uper_bits nd1 x)) with
    | Some i => finish (<[a := nd1]> h) i w
    | None => None
    end.
Proof.
  intros Ha nd1 Hpos. unfold insert_path. rewrite walk_cons, (visit_eq _ _ _ _ Ha).
  cbv zeta. fold nd1. apply Z.ltb_lt in Hpos. rewrite Hpos.
  destruct (advance _ _ _); reflexivity.
Qed.

Ltac table_bits :=
  cbn [letters_table set_letters_table];
  rewrite ?shl64_valid by lia;
  rewrite ?Z.lor_spec, ?Z.bits_0, ?Z.pow2_bits_eqb by lia;
  repeat match goal with
         | |- context [Z.eqb ?u ?v] => destruct (Z.eqb_spec u v)
         end;
  simpl; try reflexivity; try lia.

(** Three valid one-element paths inserted into a fresh trie in strictly
    decreasing order of their identifier: the first two insertions return,
    the third one faults.  Two higher identifiers are then recorded on the
    root, but the first two insertions have ended on the same node, so
    only one node follows the root. *)
Theorem descending_insertions_fault (a b c w1 w2 w3 : Z) :
  0 <= a -> a < b -> b < c -> c < LLA ->
  exists h,
    insert_all fresh root [([c], w1); ([b], w2)] = Some h /\
    length h = 2%nat /\
    insert_path h root [a] w3 = None.
Proof.
  unfold LLA. intros Ha Hab Hbc Hc.
  set (n0 := mk_node (Z.lor 0 (shl64 1 c)) (Some 1%nat) 0).
  set (n1 := set_letters_table n0 (Z.lor (letters_table n0) (shl64 1 b))).
  set (n2 := set_letters_table n1 (Z.lor (letters_table n1) (shl64 1 a))).
  assert (count_uper_bits n1 b = 1) as Hcount1.
  { rewrite (count_uper_bits_next n1 b c); [|lia|lia|subst n1 n0; table_bits|].
    - rewrite count_uper_bits_none_above; [lia|lia|].
      intros j Hj. subst n1 n0. table_bits.
    - intros j Hj. subst n1 n0. table_bits. }
  assert (count_uper_bits n2 a = 2) as Hcount2.
  { rewrite (count_uper_bits_next n2 a b); [|lia|lia|subst n2 n1 n0; table_bits|].
    - rewrite (count_uper_bits_next n2 b c); [|lia|lia|subst n2 n1 n0; table_bits|].
      + rewrite count_uper_bits_none_above; [lia|lia|].
        intros j Hj. subst n2 n1 n0. table_bits.
      + intros j Hj. subst n2 n1 n0. table_bits.
    - intros j Hj. subst n2 n1 n0. table_bits. }
  exists [n1; mk_node 0 None (to_uint32 w2)].
  split; [|split; [reflexivity|]].
  - cbn [insert_all]. unfold root.
    rewrite (insert_allocating fresh 0 zero_node c [] w1).
    + change (<[0%nat := _]> fresh ++ tail_nodes _ _ _ _)
        with [n0; mk_node 0 None (to_uint32 w1)].
      rewrite (insert_one_steps [n0; mk_node 0 None (to_uint32 w1)] 0 n0 b w2 eq_refl);
        fold n1; [|lia].
      rewrite Hcount1. reflexivity.
    + reflexivity.
    + apply count_uper_bits_single. apply Z.lor_0_l.
  - unfold root.
    rewrite (insert_one_steps [n1; mk_node 0 None (to_uint32 w2)] 0 n1 a w3 eq_refl);
      fold n2; [|lia].
    rewrite Hcount2. reflexivity.
Qed.

Lemma descending_insertions_fault_witness :
  exists h,
    insert_all fresh root [([5], 7); ([4], 9)] = Some h /\
    length h = 2%nat /\
    insert_path h root [3] 1 = None.
Proof.
  apply (descending_insertions_fault 3 4 5 7 9 1); unfold LLA; lia.
Defined.

(** ** Insertion of identifiers outside [0, 64) *)

Lemma shl1_ub_valid (u : Z -> Z) (n : Z) : 0 <= n < 64 -> shl1_ub u n = shl64 1 n.
Proof.
  intros Hn. unfold shl1_ub.
  replace (0 <=? n) with true by (symmetry; apply Z.leb_le; lia).
  replace (n <? 64) with true by (symmetry; apply Z.ltb_lt; lia).
  reflexivity.
Qed.

Lemma count_ext (f g : Z -> bool) (L : list Z) (c : Z) :
  (forall j, j ∈ L -> f j = g j) ->
  fold_left (fun count j => if f j then count + 1 else count) L c
  = fold_left (fun count j => if g j then count + 1 else count) L c.
Proof.
  revert c. induction L as [|j L IH]; intros c Hfg; [reflexivity|].
  simpl. rewrite (Hfg j) by (apply elem_of_cons; auto).
  apply IH. intros k Hk. apply Hfg, elem_of_cons; auto.
Qed.


(** From position -1 on, the loop of [count_uper_bits] shifts by counts
    in [0, 64) only. *)
Lemma count_uper_bits_ub_defined (u : Z -> Z) (nd : node) (pos : Z) :
  -1 <= pos -> count_uper_bits_ub u nd pos = count_uper_bits nd pos.
Proof.
  intros Hpos. unfold count_uper_bits_ub, count_uper_bits.
  apply (count_ext (bit_set_ub u (letters_table nd)) (bit_set (letters_table nd))).
  intros j Hj. apply upper_positions_spec in Hj. unfold LLA in Hj.
  unfold bit_set_ub, bit_set. rewrite shl1_ub_valid by lia. reflexivity.
Qed.

Lemma visit_ub_valid (u : Z -> Z) (h : heap) (i : ptr) (pos : Z) :
  valid_id pos -> visit_ub u h i pos = visit h i pos.
Proof.
  unfold valid_id, LLA. intros Hpos. unfold visit_ub, visit.
  destruct i as [a|]; [|reflexivity].
  destruct (h !! a) as [nd|]; [|reflexivity].
  cbv zeta. rewrite shl1_ub_valid by lia.
  rewrite count_uper_bits_ub_defined by lia. reflexivity.
Qed.

Lemma walk_ub_valid (u : Z -> Z) (path : list Z) :
  Forall valid_id path ->
  forall (h : heap) (i : ptr), walk_ub u h i path = walk h i path.
Proof.
  induction 1 as [|pos rest Hpos _ IH]; intros h i; [reflexivity|].
  simpl. rewrite (visit_ub_valid u h i pos Hpos).
  destruct (visit h i pos) as [[h' i']|]; [apply IH|reflexivity].
Qed.

(** On valid paths nothing is left open: [insert_path_ub], with the end
    mark of the model, is [insert_path]. *)
Lemma insert_path_ub_valid (u : Z -> Z) (h : heap) (r : ptr) (path : list Z) (w : Z) :
  Forall valid_id path ->
  insert_path_ub u (shl64 1 LLA) h r path w = insert_path h r path w.
Proof.
  intros Hvalid. unfold insert_path_ub, insert_path.
  rewrite (walk_ub_valid u path Hvalid). reflexivity.
Qed.











(** With the count taken modulo 64 and the end mark 0, as the compiled
    program has them: inserting [64] sets bit 0 on the root, inserting
    [65] sets bit 1, both allocate; inserting [-1] sets bit 63, counts it
    as a bit above -1, steps to NULL and dereferences it. *)
Lemma insert_out_of_range_count_mod_64 :
  insert_path_ub shl_count_mod_64 0 fresh root [64] 7
  = Some [mk_node 1 (Some 1%nat) 0; mk_node 0 None 7] /\
  insert_path_ub shl_count_mod_64 0 fresh root [65] 7
  = Some [mk_node 2 (Some 1%nat) 0; mk_node 0 None 7] /\
  insert_path_ub shl_count_mod_64 0 fresh root [-1] 7 = None.
Proof.
  split; [vm_compute; reflexivity|].
  split; vm_compute; reflexivity.
Qed.
